(** * pptx-to-video: the narrated-video pipeline of [main.py]

    A shallow embedding of [main.py] and proofs about its orchestration
    logic.  Every call that leaves the script (the document reader,
    PowerPoint automation, the file system, the translation and speech
    services, the video library) is an oracle of the [World]; the script
    itself is a program in a small monad that records each external call
    and stops at the first one that raises. *)

From Stdlib Require Import Floats NArith ZArith String Ascii DecimalString
  DecimalNat.
From stdpp Require Import list sorting gmap.

Open Scope list_scope.

(** ** Python [str]

    A [str] is a sequence of Unicode code points. *)

Abbreviation char := N (only parsing).
Abbreviation str := (list N) (only parsing).

(** A literal of the source, written as a Rocq string (ASCII only). *)
Fixpoint py (s : string) : str :=
  match s with
  | EmptyString => []
  | String a s' => N_of_ascii a :: py s'
  end.

Arguments py : simpl never.

(** The one-character string of a line feed. *)
Definition newline : str := [10%N].

(** Truth value of a [str]: empty is false. *)
Definition truthy (s : str) : bool :=
  match s with
  | [] => false
  | _ :: _ => true
  end.

(** [c.isspace()] for one code point, the table of CPython's
    [_PyUnicode_IsWhitespace]. *)
Definition isspace (c : char) : bool :=
  ((9 <=? c) && (c <=? 13)
   || (28 <=? c) && (c <=? 32)
   || (c =? 133) || (c =? 160) || (c =? 5760)
   || (8192 <=? c) && (c <=? 8202)
   || (c =? 8232) || (c =? 8233) || (c =? 8239) || (c =? 8287)
   || (c =? 12288))%N.

(** [s.lstrip()], [s.rstrip()], [s.strip()] with no argument. *)
Fixpoint lstrip (s : str) : str :=
  match s with
  | [] => []
  | c :: s' => if isspace c then lstrip s' else s
  end.

Definition rstrip (s : str) : str := reverse (lstrip (reverse s)).

Definition strip (s : str) : str := rstrip (lstrip s).

(** [sep.join(parts)]. *)
Fixpoint str_join (sep : str) (parts : list str) : str :=
  match parts with
  | [] => []
  | [p] => p
  | p :: ps => p ++ sep ++ str_join sep ps
  end.

Definition str_eqb (a b : str) : bool := bool_decide (a = b).

(** [s.endswith(suffix)]. *)
Definition endswith (s suffix : str) : bool :=
  (length suffix <=? length s)%nat
  && str_eqb (drop (length s - length suffix) s) suffix.

(** [str(n)] for a non-negative [int], as an f-string formats it. *)
Definition str_of_nat (n : nat) : str :=
  py (NilEmpty.string_of_uint (Nat.to_uint n)).

(** [a <= b] on [str]: lexicographic on code points, a proper prefix
    first.  This is the order [sorted] uses. *)
Fixpoint str_leb (a b : str) : bool :=
  match a, b with
  | [], _ => true
  | _ :: _, [] => false
  | x :: a', y :: b' =>
      if (x <? y)%N then true
      else if (x =? y)%N then str_leb a' b'
      else false
  end.

Definition str_le (a b : str) : Prop := str_leb a b = true.

#[global] Instance str_le_dec : RelDecision str_le :=
  fun a b => decide (str_leb a b = true).

(** [sorted(names)] on a list of [str]. *)
Definition sorted (names : list str) : list str := merge_sort str_le names.

(** [enumerate(xs)]. *)
Definition enumerate {A} (xs : list A) : list (nat * A) := imap pair xs.

(** ** Data of the script *)

(** An exception object; the script never inspects one. *)
Inductive exn := Exception (name : string).

(** What an evaluation gives: a value, or a raised exception. *)
Inductive outcome (A : Type) :=
| Return (a : A)
| Raise (e : exn).
Arguments Return {A} a.
Arguments Raise {A} e.

(** A slide as the document reader presents it: [has_notes_slide], and
    [notes_slide.notes_text_frame], which is [None] or a frame whose
    paragraphs each have a [text]. *)
Record Slide := {
  has_notes_slide : bool;
  notes_text_frame : option (list str)
}.

(** [{"index": i, "notes": notes_text}] *)
Record SlideData := { slide_index : nat; slide_notes : str }.

(** [{"code": ..., "label": ...}] *)
Record Language := { lang_code : str; lang_label : str }.

(** [{"language_code": ..., "name": ...}] *)
Record Voice := { voice_language_code : str; voice_name : str }.

(** An [AudioFileClip]: the file it reads and its [duration]. *)
Record AudioClip := { audio_file : str; audio_duration : float }.

(** An [ImageClip]: image file, [duration], and the audio set by
    [with_audio]. *)
Record Clip := {
  clip_image : str;
  clip_duration : float;
  clip_audio : option AudioClip
}.

(** The result of [parser.parse_args()]. *)
Record Namespace := { args_pptx : str; args_languages : option (list str) }.

(** The module-level names of [main.py] that its functions read. *)
Record Globals := {
  CURRENT_DIRECTORY : str;
  OUTPUT_DIR : str;
  TMP_DIR : str;
  LANGUAGES : list Language;
  default_voice : gmap str Voice;
  POST_AUDIO_PADDING : float
}.

(** The functions of [os.path] the script uses; pure string functions
    of the platform's path module ([abspath] for a fixed working
    directory). *)
Record OsPath := {
  abspath : str -> str;
  dirname : str -> str;
  basename : str -> str;
  splitext : str -> str * str;
  path_join : str -> str -> str
}.

(** ** External calls *)

(** Calls made for their effect only. *)
Inductive command :=
| Makedirs (path : str) (exist_ok : bool)
| Dispatch (prog_id : str)
| SetVisible (visible : bool)
| PresentationsOpen (path : str) (WithWindow : bool)
| SaveAs (path : str) (format : Z)
| PresentationClose
| Quit
| gTTS (text lang : str)
| gTTS_save (text lang out_path : str)
| ImageClip (img : str) (duration : float)
| ConcatenateVideoclips (clips : list Clip) (method : str)
| WriteVideofile (final : list Clip) (out_path : str) (fps : Z)
    (codec : str) (audio : bool) (audio_codec : str) (threads : Z).

(** One external call together with what it gave back. *)
Inductive event :=
| EvCommand (c : command) (r : outcome unit)
| EvPresentation (path : str) (r : outcome (list Slide))
| EvListdir (path : str) (r : outcome (list str))
| EvTranslate (source target text : str) (r : outcome str)
| EvAudioFileClip (path : str) (r : outcome float).

Definition trace := list event.

(** The collaborators.  Each oracle sees the calls made so far, so the
    same call may be answered differently at different times. *)
Record World := {
  os_path : OsPath;
  run_command : trace -> command -> outcome unit;
  open_presentation : trace -> str -> outcome (list Slide);
  os_listdir : trace -> str -> outcome (list str);
  google_translate : trace -> str -> str -> str -> outcome str;
  audio_file_clip : trace -> str -> outcome float
}.

(** The exception an event raised, if it did. *)
Definition raised {A} (r : outcome A) : option exn :=
  match r with
  | Return _ => None
  | Raise e => Some e
  end.

Definition failed (ev : event) : option exn :=
  match ev with
  | EvCommand _ r => raised r
  | EvPresentation _ r => raised r
  | EvListdir _ r => raised r
  | EvTranslate _ _ _ r => raised r
  | EvAudioFileClip _ r => raised r
  end.

(** ** The monad of the script

    A program takes the history of external calls and gives the calls
    it made and its outcome.  Nothing in [main.py] catches an exception,
    so [bind] is the only way two steps are composed. *)

Definition M (A : Type) : Type := trace -> trace * outcome A.

Definition ret {A} (a : A) : M A := fun _ => ([], Return a).

Definition bind {A B} (m : M A) (k : A -> M B) : M B :=
  fun h =>
    match m h with
    | (evs, Raise e) => (evs, Raise e)
    | (evs, Return a) =>
        match k a (h ++ evs) with
        | (evs', r) => (evs ++ evs', r)
        end
    end.

Notation "x <- m ;; k" := (bind m (fun x => k))
  (at level 100, m at next level, right associativity).

(** One external call: ask the oracle, record the call and its answer. *)
Definition external {A} (ask : trace -> outcome A) (log : outcome A -> event)
  : M A :=
  fun h => let r := ask h in ([log r], r).

(** [for x in xs: body], with the variables the body updates as [s]. *)
Fixpoint for_ {A S} (xs : list A) (body : S -> A -> M S) (s : S) : M S :=
  match xs with
  | [] => ret s
  | x :: xs' => s' <- body s x ;; for_ xs' body s'
  end.

Definition call (w : World) (c : command) : M unit :=
  external (fun h => run_command w h c) (EvCommand c).

Definition Presentation (w : World) (path : str) : M (list Slide) :=
  external (fun h => open_presentation w h path) (EvPresentation path).

Definition listdir (w : World) (path : str) : M (list str) :=
  external (fun h => os_listdir w h path) (EvListdir path).

(** [GoogleTranslator(source=..., target=...).translate(text)] *)
Definition GoogleTranslator_translate (w : World) (source target text : str)
  : M str :=
  external (fun h => google_translate w h source target text)
           (EvTranslate source target text).

(** [AudioFileClip(path)] *)
Definition AudioFileClip (w : World) (path : str) : M AudioClip :=
  d <- external (fun h => audio_file_clip w h path) (EvAudioFileClip path) ;;
  ret {| audio_file := path; audio_duration := d |}.

(** ** [main.py]

    [print] writes progress to the console and is left out: it changes
    no variable and makes no call to a collaborator. *)

(** *** Configuration (lines 12-35) *)

Definition module_LANGUAGES : list Language :=
  [ {| lang_code := py "en"; lang_label := py "English" |};
    {| lang_code := py "fr"; lang_label := py "French" |};
    {| lang_code := py "es"; lang_label := py "Spanish" |};
    {| lang_code := py "pt"; lang_label := py "Portuguese" |};
    {| lang_code := py "hi"; lang_label := py "Hindi" |};
    {| lang_code := py "si"; lang_label := py "Sinhala" |} ].

Definition module_default_voice : gmap str Voice :=
  list_to_map
    [ (py "en", {| voice_language_code := py "en-US";
                   voice_name := py "en-US-Neural2-D" |});
      (py "fr", {| voice_language_code := py "fr-FR";
                   voice_name := py "fr-FR-Neural2-A" |});
      (py "es", {| voice_language_code := py "es-ES";
                   voice_name := py "es-ES-Neural2-A" |});
      (py "pt", {| voice_language_code := py "pt-BR";
                   voice_name := py "pt-BR-Neural2-A" |});
      (py "hi", {| voice_language_code := py "hi-IN";
                   voice_name := py "hi-IN-Neural2-A" |});
      (py "si", {| voice_language_code := py "si-LK";
                   voice_name := py "si-LK-Standard-A" |}) ].

(** The globals as the module body binds them; [file] is [__file__]. *)
Definition module_globals (os : OsPath) (file : str) : Globals :=
  let current_directory := dirname os (abspath os file) in
  {| CURRENT_DIRECTORY := current_directory;
     OUTPUT_DIR := path_join os current_directory (py "output_videos");
     TMP_DIR := path_join os current_directory (py "tmp_assets");
     LANGUAGES := module_LANGUAGES;
     default_voice := module_default_voice;
     POST_AUDIO_PADDING := 1.5%float |}.

(** *** Step 1: [extract_notes_from_pptx] (lines 41-53) *)

Definition extract_notes_from_pptx (g : Globals) (w : World) (pptx_path : str)
  : M (list SlideData) :=
  prs <- Presentation w pptx_path ;;
  for_ (enumerate prs)
    (fun slides_data '(i, slide) =>
       let notes_text :=
         match has_notes_slide slide, notes_text_frame slide with
         | true, Some paragraphs => strip (str_join newline paragraphs)
         | _, _ => []
         end in
       ret (slides_data
              ++ [{| slide_index := i;
                     slide_notes := if truthy notes_text then notes_text else [] |}]))
    [].

(** *** Step 2: [export_slides_as_images] (lines 59-73) *)

Definition export_slides_as_images (g : Globals) (w : World)
    (pptx_path out_dir : str) : M (list str) :=
  _ <- call w (Dispatch (py "PowerPoint.Application")) ;;
  _ <- call w (SetVisible true) ;;
  _ <- call w (PresentationsOpen (abspath (os_path w) pptx_path) false) ;;
  let base := path_join (os_path w) (abspath (os_path w) out_dir) (py "slide_image") in
  _ <- call w (SaveAs base 17) ;;
  _ <- call w PresentationClose ;;
  _ <- call w Quit ;;
  entries <- listdir w base ;;
  let images :=
    map (path_join (os_path w) base)
        (filter (fun f => endswith f (py ".JPG") = true) (sorted entries)) in
  ret images.

(** *** Step 3: [translate_texts] (lines 79-87) *)

Definition translate_texts (g : Globals) (w : World)
    (texts : list str) (target_language : str) : M (list str) :=
  for_ texts
    (fun results t =>
       if negb (truthy (strip t)) then
         ret (results ++ [[]])
       else
         res <- GoogleTranslator_translate w (py "auto") target_language t ;;
         ret (results ++ [res]))
    [].

(** *** Step 4: [synthesize_speech] (lines 93-97) *)

Definition synthesize_speech (g : Globals) (w : World)
    (text lang_code out_path : str) : M str :=
  _ <- call w (gTTS text lang_code) ;;
  _ <- call w (gTTS_save text lang_code out_path) ;;
  ret out_path.

(** *** Step 5: [assemble_video] (lines 103-128) *)

(** The loop of lines 105-117, giving [clips]. *)
Definition assemble_video_clips (g : Globals) (w : World)
    (slide_images : list str) (audio_files : list (option str))
  : M (list Clip) :=
  for_ (zip slide_images audio_files)
    (fun clips '(img, aud) =>
       let silent :=
         _ <- call w (ImageClip img 4.0%float) ;;
         ret (clips ++ [{| clip_image := img; clip_duration := 4.0%float;
                           clip_audio := None |}]) in
       match aud with
       | Some aud_path =>
           if truthy aud_path then
             audio_clip <- AudioFileClip w aud_path ;;
             let duration :=
               (audio_duration audio_clip + POST_AUDIO_PADDING g)%float in
             _ <- call w (ImageClip img duration) ;;
             ret (clips ++ [{| clip_image := img; clip_duration := duration;
                               clip_audio := Some audio_clip |}])
           else silent
       | None => silent
       end)
    [].

Definition assemble_video (g : Globals) (w : World)
    (slide_images : list str) (audio_files : list (option str))
    (out_path : str) : M unit :=
  clips <- assemble_video_clips g w slide_images audio_files ;;
  _ <- call w (ConcatenateVideoclips clips (py "compose")) ;;
  let final := clips in
  call w (WriteVideofile final out_path 24 (py "libx264") true
            (py "libmp3lame") 4).

(** *** Main pipeline: [run_pipeline] (lines 134-164) *)

(** Lines 141-145: the notes of one language. *)
Definition translate_notes (g : Globals) (w : World)
    (notes : list str) (code : str) : M (list str) :=
  if negb (str_eqb code (py "en")) then translate_texts g w notes code
  else ret notes.

(** The path of line 152, for the loop index [i]. *)
Definition audio_path_of (g : Globals) (w : World) (i : nat) (code : str)
  : str :=
  path_join (os_path w) (TMP_DIR g)
    (py "slide_" ++ str_of_nat (i + 1) ++ py "_" ++ code ++ py ".mp3").

(** Lines 148-156: the audio of one language, giving [audio_files]. *)
Definition generate_narration (g : Globals) (w : World)
    (lang_notes : list str) (code : str) : M (list (option str)) :=
  for_ (enumerate lang_notes)
    (fun audio_files '(i, txt) =>
       if truthy (strip txt) then
         let audio_path := audio_path_of g w i code in
         _ <- synthesize_speech g w txt code audio_path ;;
         ret (audio_files ++ [Some audio_path])
       else
         ret (audio_files ++ [None]))
    [].

(** Lines 159-161: [out_file]. *)
Definition out_file_of (g : Globals) (w : World) (pptx_path code : str) : str :=
  path_join (os_path w) (OUTPUT_DIR g)
    (fst (splitext (os_path w) (basename (os_path w) pptx_path))
       ++ py "_" ++ code ++ py ".mp4").

(** The body of the loop over [languages] (lines 139-164). *)
Definition run_pipeline_language (g : Globals) (w : World)
    (pptx_path : str) (notes images : list str) (lang : Language) : M unit :=
  let code := lang_code lang in
  lang_notes <- translate_notes g w notes code ;;
  audio_files <- generate_narration g w lang_notes code ;;
  let out_file := out_file_of g w pptx_path code in
  assemble_video g w images audio_files out_file.

Definition run_pipeline (g : Globals) (w : World)
    (pptx_path : str) (languages : list Language) : M unit :=
  slides <- extract_notes_from_pptx g w pptx_path ;;
  let notes := map slide_notes slides in
  images <- export_slides_as_images g w pptx_path (TMP_DIR g) ;;
  for_ languages
    (fun _ lang => run_pipeline_language g w pptx_path notes images lang)
    tt.

(** *** The script (lines 12-16 and 171-186)

    [args] is what [parse_args] returned for the command line. *)
Definition main (w : World) (file : str) (args : Namespace) : M unit :=
  let g := module_globals (os_path w) file in
  _ <- call w (Makedirs (OUTPUT_DIR g) true) ;;
  _ <- call w (Makedirs (TMP_DIR g) true) ;;
  let langs := LANGUAGES g in
  run_pipeline g w (args_pptx args) langs.

(** ** Reading a trace *)

(** No call in the trace raised. *)
Definition succeeded (evs : trace) : Prop :=
  Forall (fun ev => failed ev = None) evs.

(** The trace ends at the call that raised [e]; every call before it
    returned. *)
Definition stopped_at (e : exn) (evs : trace) : Prop :=
  exists evs0 ev, evs = evs0 ++ [ev] /\ succeeded evs0 /\ failed ev = Some e.

(** A program raises only what an external call raised, and makes no
    call after one raised. *)
Definition fail_stop {A} (m : M A) : Prop :=
  forall h,
    match m h with
    | (evs, Return _) => succeeded evs
    | (evs, Raise e) => stopped_at e evs
    end.

(** The translation requests in a trace: source, target and text. *)
Definition translation_of (ev : event) : option (str * str * str) :=
  match ev with
  | EvTranslate source target text _ => Some (source, target, text)
  | _ => None
  end.
Definition translations (evs : trace) : list (str * str * str) :=
  omap translation_of evs.

(** The synthesis requests in a trace: text and language. *)
Definition synthesis_of (ev : event) : option (str * str) :=
  match ev with
  | EvCommand (gTTS text lang) _ => Some (text, lang)
  | _ => None
  end.
Definition synthesis_calls (evs : trace) : list (str * str) :=
  omap synthesis_of evs.

(** The paths given to [write_videofile] in a trace. *)
Definition video_of (ev : event) : option str :=
  match ev with
  | EvCommand (WriteVideofile _ out_path _ _ _ _ _) _ => Some out_path
  | _ => None
  end.
Definition videos (evs : trace) : list str := omap video_of evs.

(** Every call a program makes satisfies [P]. *)
Definition emits {A} (P : event -> Prop) (m : M A) : Prop :=
  forall h, Forall P (fst (m h)).

(** A text with a character that is not whitespace. *)
Definition nonblank (t : str) : Prop := truthy (strip t) = true.

#[global] Instance nonblank_dec t : Decision (nonblank t) :=
  decide (truthy (strip t) = true).

(** The calls [translate_texts] makes for inputs paired with outputs:
    one per text that is not blank, in order. *)
Definition translation_events (target : str) (pairs : list (str * str))
  : trace :=
  map (fun p => EvTranslate (py "auto") target (fst p) (Return (snd p)))
      (filter (fun p => nonblank (fst p)) pairs).

(** What [generate_narration] computes when every synthesis returns:
    the audio list, and the calls made. *)
Definition narration_audio (g : Globals) (w : World) (code : str)
    (lang_notes : list str) : list (option str) :=
  imap (fun i txt =>
          if truthy (strip txt) then Some (audio_path_of g w i code) else None)
       lang_notes.

Definition narration_events (g : Globals) (w : World) (code : str)
    (lang_notes : list str) : trace :=
  concat
    (imap (fun i txt =>
             if truthy (strip txt) then
               [EvCommand (gTTS txt code) (Return tt);
                EvCommand (gTTS_save txt code (audio_path_of g w i code))
                          (Return tt)]
             else [])
          lang_notes).

(** What one clip of [assemble_video] must look like for the pair
    [(img, aud)], given the calls [evs] that were made. *)
Definition clip_for (g : Globals) (evs : trace)
    (pair : str * option str) (c : Clip) : Prop :=
  let silent := clip_audio c = None /\ clip_duration c = 4.0%float in
  clip_image c = fst pair
  /\ match snd pair with
     | Some aud_path =>
         if truthy aud_path then
           exists audio_clip,
             clip_audio c = Some audio_clip
             /\ audio_file audio_clip = aud_path
             /\ EvAudioFileClip aud_path (Return (audio_duration audio_clip))
                  ∈ evs
             /\ clip_duration c
                = (audio_duration audio_clip + POST_AUDIO_PADDING g)%float
         else silent
     | None => silent
     end.

(** [g] with another voice table. *)
Definition with_default_voice (voices : gmap str Voice) (g : Globals)
  : Globals :=
  {| CURRENT_DIRECTORY := CURRENT_DIRECTORY g;
     OUTPUT_DIR := OUTPUT_DIR g;
     TMP_DIR := TMP_DIR g;
     LANGUAGES := LANGUAGES g;
     default_voice := voices;
     POST_AUDIO_PADDING := POST_AUDIO_PADDING g |}.

(** ** Two readings of "empty" that the code does not implement

    Both say "non-empty" where [main.py] tests [t.strip()]. *)

(** Every non-empty input of [translate_texts] is sent to the
    translator and replaced by its answer. *)
Definition nonempty_texts_translated : Prop :=
  forall g w texts target h evs results i t,
    translate_texts g w texts target h = (evs, Return results) ->
    texts !! i = Some t -> t <> [] ->
    exists res, results !! i = Some res
      /\ EvTranslate (py "auto") target t (Return res) ∈ evs.

(** Every non-empty note of a language gets an audio path. *)
Definition nonempty_notes_narrated : Prop :=
  forall g w notes lang h lang_notes evs1 audio_files evs2 i txt,
    translate_notes g w notes (lang_code lang) h = (evs1, Return lang_notes) ->
    generate_narration g w lang_notes (lang_code lang) (h ++ evs1)
      = (evs2, Return audio_files) ->
    lang_notes !! i = Some txt -> txt <> [] ->
    exists audio_path, audio_files !! i = Some (Some audio_path).

(** ** Sample collaborators

    A world in which every call returns, used to run the script on
    concrete decks. *)

Definition backslash : char := 92%N.
Definition dot : char := 46%N.

Fixpoint take_until (c : char) (s : str) : str :=
  match s with
  | [] => []
  | x :: s' => if (x =? c)%N then [] else x :: take_until c s'
  end.

Fixpoint drop_until (c : char) (s : str) : str :=
  match s with
  | [] => []
  | x :: s' => if (x =? c)%N then s else drop_until c s'
  end.

(** Paths with backslash separators and one extension, enough for
    names such as [C:\decks\talk.pptx]. *)
Definition sample_os_path : OsPath :=
  {| abspath := fun p => p;
     dirname := fun p => reverse (drop 1 (drop_until backslash (reverse p)));
     basename := fun p => reverse (take_until backslash (reverse p));
     splitext := fun p =>
       match drop_until dot (reverse p) with
       | [] => (p, [])
       | _ :: root => (reverse root, dot :: reverse (take_until dot (reverse p)))
       end;
     path_join := fun a b => a ++ [backslash] ++ b |}.

Definition sample_deck : list Slide :=
  [ {| has_notes_slide := true; notes_text_frame := Some [py "Hello"] |};
    {| has_notes_slide := false; notes_text_frame := None |};
    {| has_notes_slide := true;
       notes_text_frame := Some [py " World"; py "of slides "] |} ].

Definition sample_listing : list str :=
  [py "Slide2.JPG"; py "thumbs.db"; py "Slide1.JPG"; py "Slide3.JPG";
   py "Slide4.jpg"].

(** The sample world is fixed by what its translator answers. *)
Definition sample_world_with
    (translate : str -> str -> outcome str) : World :=
  {| os_path := sample_os_path;
     run_command := fun _ _ => Return tt;
     open_presentation := fun _ _ => Return sample_deck;
     os_listdir := fun _ _ => Return sample_listing;
     google_translate := fun _ _ target text => translate target text;
     audio_file_clip := fun _ _ => Return 3.25%float |}.

(** A translator that marks the text with the target language. *)
Definition sample_world : World :=
  sample_world_with (fun target text => Return (target ++ py ":" ++ text)).

(** A translator that answers a single space. *)
Definition blank_world : World :=
  sample_world_with (fun _ _ => Return (py " ")).

(** A translator that is unreachable for Spanish. *)
Definition failing_world : World :=
  sample_world_with
    (fun target text =>
       if str_eqb target (py "es") then Raise (Exception "RequestError")
       else Return (target ++ py ":" ++ text)).

Definition sample_file : str := py "C:\app\main.py".
Definition sample_globals : Globals := module_globals sample_os_path sample_file.
Definition sample_pptx : str := py "C:\decks\talk.pptx".

(** ** Further readings of a run *)

(** The note [extract_notes_from_pptx] stores for one slide. *)
Definition slide_note (slide : Slide) : str :=
  match has_notes_slide slide, notes_text_frame slide with
  | true, Some paragraphs => strip (str_join newline paragraphs)
  | _, _ => []
  end.

(** The PowerPoint automation calls of [export_slides_as_images], in
    the order of lines 61-69. *)
Definition export_calls (w : World) (pptx_path out_dir : str) : list command :=
  [ Dispatch (py "PowerPoint.Application");
    SetVisible true;
    PresentationsOpen (abspath (os_path w) pptx_path) false;
    SaveAs (path_join (os_path w) (abspath (os_path w) out_dir)
              (py "slide_image")) 17;
    PresentationClose;
    Quit ].

(** A call that returned. *)
Definition returned (c : command) : event := EvCommand c (Return tt).

(** Calls that read the deck or drive PowerPoint: what steps 1 and 2
    do. *)
Definition is_setup (ev : event) : bool :=
  match ev with
  | EvPresentation _ _ | EvListdir _ _ => true
  | EvCommand c _ =>
      match c with
      | Dispatch _ | SetVisible _ | PresentationsOpen _ _ | SaveAs _ _
      | PresentationClose | Quit => true
      | _ => false
      end
  | _ => false
  end.

(** The audio files opened, and the images turned into clips. *)
Definition audio_opened_of (ev : event) : option str :=
  match ev with
  | EvAudioFileClip path _ => Some path
  | _ => None
  end.
Definition audio_opened (evs : trace) : list str := omap audio_opened_of evs.

Definition image_clip_of (ev : event) : option str :=
  match ev with
  | EvCommand (ImageClip img _) _ => Some img
  | _ => None
  end.
Definition image_clips (evs : trace) : list str := omap image_clip_of evs.

(** The audio entry [assemble_video] opens for a pair, if any. *)
Definition narrated (pair : str * option str) : option str :=
  match snd pair with
  | Some aud_path => if truthy aud_path then Some aud_path else None
  | None => None
  end.


(** The translation requests of a whole run over [languages] for the
    extracted [notes]. *)
Definition run_translations (notes : list str) (languages : list Language)
  : list (str * str * str) :=
  concat
    (map (fun lang =>
            if str_eqb (lang_code lang) (py "en") then []
            else map (fun t => (py "auto", lang_code lang, t))
                     (filter nonblank notes))
         languages).

(** A sample export of a ten-slide deck. *)
Definition ten_slide_world : World :=
  {| os_path := sample_os_path;
     run_command := fun _ _ => Return tt;
     open_presentation := fun _ _ => Return sample_deck;
     os_listdir := fun _ _ =>
       Return (map (fun n => py "Slide" ++ str_of_nat n ++ py ".JPG")
                   (seq 1 10));
     google_translate := fun _ _ target text => Return (target ++ py ":" ++ text);
     audio_file_clip := fun _ _ => Return 3.25%float |}.

(** * Properties *)

(** ** Strings *)

Lemma lstrip_nil (s : str) :
  lstrip s = [] <-> Forall (fun c => isspace c = true) s.
Proof.
  induction s as [|c s IH]; simpl.
  - split; [constructor | reflexivity].
  - destruct (isspace c) eqn:Hc.
    + rewrite IH. split.
      * intros Hs. by constructor.
      * intros Hs. by inversion Hs.
    + split; [discriminate|].
      intros Hs. inversion Hs; congruence.
Qed.

Lemma lstrip_head (s : str) c s' : lstrip s = c :: s' -> isspace c = false.
Proof.
  induction s as [|x s IH]; simpl; [discriminate|].
  destruct (isspace x) eqn:Hx; [exact IH|].
  intros [= -> _]. exact Hx.
Qed.

(** [t.strip()] is empty exactly when [t] is whitespace only. *)
Lemma strip_nil (s : str) :
  strip s = [] <-> Forall (fun c => isspace c = true) s.
Proof.
  unfold strip, rstrip. split.
  - intros Hs.
    assert (Hl : lstrip (reverse (lstrip s)) = []).
    { destruct (lstrip (reverse (lstrip s))); [done|].
      apply (f_equal length) in Hs. rewrite length_reverse in Hs. done. }
    apply lstrip_nil in Hl. rewrite Forall_reverse in Hl.
    destruct (lstrip s) as [|c s'] eqn:Hs'; [by apply lstrip_nil|].
    apply lstrip_head in Hs'. inversion Hl; congruence.
  - intros Hs. apply lstrip_nil in Hs. by rewrite Hs.
Qed.

Lemma blank_iff (t : str) :
  truthy (strip t) = false <-> Forall (fun c => isspace c = true) t.
Proof.
  rewrite <- strip_nil. destruct (strip t); simpl; split; congruence.
Qed.

Lemma nonblank_nonempty (t : str) : nonblank t -> t <> [].
Proof. intros Ht ->. discriminate Ht. Qed.

Lemma endswith_suffix (s suf : str) :
  endswith s suf = true <-> exists pre, s = pre ++ suf.
Proof.
  unfold endswith, str_eqb. rewrite andb_true_iff, Nat.leb_le, bool_decide_eq_true.
  split.
  - intros [_ Hd]. remember (length s - length suf) as n.
    exists (take n s). rewrite <- Hd. symmetry. apply take_drop.
  - intros [pre ->]. rewrite length_app. split; [lia|].
    replace (length pre + length suf - length suf) with (length pre) by lia.
    by rewrite drop_app_length.
Qed.

(** The order of [sorted] is a total order on [str]. *)
#[global] Instance str_le_total : Total str_le.
Proof.
  intros a. unfold str_le.
  induction a as [|x a IH]; intros [|y b]; simpl; auto.
  destruct (N.ltb_spec x y), (N.ltb_spec y x), (N.eqb_spec x y),
    (N.eqb_spec y x); auto; try lia.
Qed.

#[global] Instance str_le_trans : Transitive str_le.
Proof.
  intros a. unfold str_le.
  induction a as [|x a IH]; intros [|y b] [|z c]; simpl; auto; try discriminate.
  destruct (N.ltb_spec x y), (N.ltb_spec y z), (N.ltb_spec x z),
    (N.eqb_spec x y), (N.eqb_spec y z), (N.eqb_spec x z);
    auto; try lia; try discriminate.
  apply IH.
Qed.

#[global] Instance str_le_antisymm : AntiSymm (=) str_le.
Proof.
  intros a. unfold str_le.
  induction a as [|x a IH]; intros [|y b]; simpl; auto; try discriminate.
  destruct (N.ltb_spec x y), (N.ltb_spec y x), (N.eqb_spec x y),
    (N.eqb_spec y x); auto; try lia; try discriminate.
  intros Hab Hba. subst. f_equal. by apply IH.
Qed.

(** [sorted] gives the one ordered arrangement of its input, so it
    agrees with any sorting algorithm. *)
Lemma sorted_spec (names : list str) :
  StronglySorted str_le (sorted names) /\ sorted names ≡ₚ names.
Proof.
  split.
  - apply StronglySorted_merge_sort; apply _.
  - apply merge_sort_Permutation.
Qed.

Lemma sorted_unique (names l : list str) :
  StronglySorted str_le l -> l ≡ₚ names -> l = sorted names.
Proof.
  intros Hl Hp. apply (StronglySorted_unique str_le); [done| |].
  - apply sorted_spec.
  - rewrite Hp. symmetry. apply sorted_spec.
Qed.

Lemma StronglySorted_filter_str (P : str -> Prop) `{!forall x, Decision (P x)}
    (l : list str) :
  StronglySorted str_le l -> StronglySorted str_le (filter P l).
Proof.
  induction 1 as [|x l Hl IH Hx]; [constructor|].
  rewrite filter_cons. destruct (decide (P x)); [|done].
  constructor; [done|].
  apply Forall_forall. intros y Hy%list_elem_of_filter.
  rewrite Forall_forall in Hx. apply Hx, Hy.
Qed.

(** ** The monad *)

Lemma bind_Return_inv {A B} (m : M A) (k : A -> M B) h evs b :
  bind m k h = (evs, Return b) ->
  exists a evs1 evs2,
    m h = (evs1, Return a) /\ k a (h ++ evs1) = (evs2, Return b)
    /\ evs = evs1 ++ evs2.
Proof.
  unfold bind. destruct (m h) as [evs1 [a|e]]; [|discriminate].
  destruct (k a (h ++ evs1)) as [evs2 r] eqn:Hk.
  intros [= <- ->]. by exists a, evs1, evs2.
Qed.

Lemma bind_Return {A B} (m : M A) (k : A -> M B) h evs1 a :
  m h = (evs1, Return a) ->
  bind m k h = (evs1 ++ fst (k a (h ++ evs1)), snd (k a (h ++ evs1))).
Proof. unfold bind. intros ->. by destruct (k a (h ++ evs1)). Qed.

Lemma bind_Raise {A B} (m : M A) (k : A -> M B) h evs e :
  m h = (evs, Raise e) -> bind m k h = (evs, Raise e).
Proof. unfold bind. by intros ->. Qed.

Lemma bind_ret_l {A B} (a : A) (k : A -> M B) h : bind (ret a) k h = k a h.
Proof.
  unfold bind, ret. rewrite app_nil_r. by destruct (k a h).
Qed.

Lemma bind_assoc {A B C} (m : M A) (k : A -> M B) (k' : B -> M C) h :
  bind (bind m k) k' h = bind m (fun a => bind (k a) k') h.
Proof.
  unfold bind. destruct (m h) as [evs [a|e]]; [|done].
  destruct (k a (h ++ evs)) as [evs1 [b|e]]; [|done].
  rewrite <- (app_assoc h evs evs1).
  destruct (k' b (h ++ evs ++ evs1)) as [evs2 r]. by rewrite app_assoc.
Qed.

Lemma bind_ext {A B} (m : M A) (k k' : A -> M B) h :
  (forall a h', k a h' = k' a h') -> bind m k h = bind m k' h.
Proof.
  intros Hk. unfold bind. destruct (m h) as [evs [a|e]]; [|done].
  by rewrite Hk.
Qed.

Lemma bind_ret_r {A} (m : M A) h : bind m ret h = m h.
Proof.
  unfold bind, ret. destruct (m h) as [evs [a|e]]; [|done].
  by rewrite app_nil_r.
Qed.

(** A loop over [xs ++ [x]] is the loop over [xs] followed by one more
    run of the body. *)
Lemma for_snoc {A S} (xs : list A) (x : A) (body : S -> A -> M S) s h :
  for_ (xs ++ [x]) body s h = bind (for_ xs body s) (fun s' => body s' x) h.
Proof.
  revert s h. induction xs as [|y xs IH]; intros s h; simpl.
  - by rewrite bind_ret_l, bind_ret_r.
  - rewrite bind_assoc. apply bind_ext. intros s' h'. apply IH.
Qed.

(** *** Programs stop at the first failure *)

Lemma succeeded_app evs1 evs2 :
  succeeded (evs1 ++ evs2) <-> succeeded evs1 /\ succeeded evs2.
Proof. apply Forall_app. Qed.

Lemma stopped_at_app e evs1 evs2 :
  succeeded evs1 -> stopped_at e evs2 -> stopped_at e (evs1 ++ evs2).
Proof.
  intros H1 (evs0 & ev & -> & H0 & Hev).
  exists (evs1 ++ evs0), ev. rewrite app_assoc. split; [done|].
  split; [by apply succeeded_app|done].
Qed.

Lemma fail_stop_ret {A} (a : A) : fail_stop (ret a).
Proof. intros h. constructor. Qed.

Lemma fail_stop_bind {A B} (m : M A) (k : A -> M B) :
  fail_stop m -> (forall a, fail_stop (k a)) -> fail_stop (bind m k).
Proof.
  intros Hm Hk h. unfold bind. specialize (Hm h).
  destruct (m h) as [evs [a|e]]; [|done].
  specialize (Hk a (h ++ evs)).
  destruct (k a (h ++ evs)) as [evs' [b|e]].
  - by apply succeeded_app.
  - by apply stopped_at_app.
Qed.

Lemma fail_stop_external {A} (ask : trace -> outcome A) log :
  (forall r, failed (log r) = raised r) -> fail_stop (external ask log).
Proof.
  intros Hlog h. unfold external. simpl.
  destruct (ask h) as [a|e] eqn:Hr.
  - constructor; [|constructor]. by rewrite Hlog.
  - exists [], (log (Raise e)). split; [done|]. split; [constructor|].
    by rewrite Hlog.
Qed.

Lemma fail_stop_for {A S} (xs : list A) (body : S -> A -> M S) s :
  (forall s x, fail_stop (body s x)) -> fail_stop (for_ xs body s).
Proof.
  intros Hbody. revert s. induction xs as [|x xs IH]; intros s; simpl.
  - apply fail_stop_ret.
  - apply fail_stop_bind; [apply Hbody | apply IH].
Qed.

Lemma fail_stop_call w c : fail_stop (call w c).
Proof. by apply fail_stop_external. Qed.

Create HintDb fail_stop.
#[global] Hint Resolve fail_stop_ret fail_stop_call : fail_stop.

Ltac fail_stop_step :=
  cbv beta zeta;
  first
    [ solve [auto with fail_stop]
    | apply fail_stop_bind; [|intros ?]
    | apply fail_stop_for; intros ? ?
    | apply fail_stop_external; reflexivity ].

Lemma fail_stop_Presentation w path : fail_stop (Presentation w path).
Proof. by apply fail_stop_external. Qed.

Lemma fail_stop_listdir w path : fail_stop (listdir w path).
Proof. by apply fail_stop_external. Qed.

Lemma fail_stop_translate w source target text :
  fail_stop (GoogleTranslator_translate w source target text).
Proof. by apply fail_stop_external. Qed.

Lemma fail_stop_AudioFileClip w path : fail_stop (AudioFileClip w path).
Proof. unfold AudioFileClip. repeat fail_stop_step. Qed.

#[global] Hint Resolve fail_stop_Presentation fail_stop_listdir
  fail_stop_translate fail_stop_AudioFileClip : fail_stop.

Lemma fail_stop_extract_notes_from_pptx g w pptx_path :
  fail_stop (extract_notes_from_pptx g w pptx_path).
Proof.
  unfold extract_notes_from_pptx. repeat fail_stop_step.
  destruct x. auto with fail_stop.
Qed.

Lemma fail_stop_export_slides_as_images g w pptx_path out_dir :
  fail_stop (export_slides_as_images g w pptx_path out_dir).
Proof. unfold export_slides_as_images. repeat fail_stop_step. Qed.

Lemma fail_stop_translate_texts g w texts target :
  fail_stop (translate_texts g w texts target).
Proof.
  unfold translate_texts. fail_stop_step.
  destruct (negb _); repeat fail_stop_step.
Qed.

Lemma fail_stop_synthesize_speech g w text lang_code out_path :
  fail_stop (synthesize_speech g w text lang_code out_path).
Proof. unfold synthesize_speech. repeat fail_stop_step. Qed.

#[global] Hint Resolve fail_stop_extract_notes_from_pptx
  fail_stop_export_slides_as_images fail_stop_translate_texts
  fail_stop_synthesize_speech : fail_stop.

Lemma fail_stop_assemble_video_clips g w slide_images audio_files :
  fail_stop (assemble_video_clips g w slide_images audio_files).
Proof.
  unfold assemble_video_clips. fail_stop_step.
  destruct x as [img [aud_path|]]; [destruct (truthy aud_path)|];
    repeat fail_stop_step.
Qed.

#[global] Hint Resolve fail_stop_assemble_video_clips : fail_stop.

Lemma fail_stop_assemble_video g w slide_images audio_files out_path :
  fail_stop (assemble_video g w slide_images audio_files out_path).
Proof. unfold assemble_video. repeat fail_stop_step. Qed.

Lemma fail_stop_translate_notes g w notes code :
  fail_stop (translate_notes g w notes code).
Proof. unfold translate_notes. destruct (negb _); auto with fail_stop. Qed.

Lemma fail_stop_generate_narration g w lang_notes code :
  fail_stop (generate_narration g w lang_notes code).
Proof.
  unfold generate_narration. fail_stop_step.
  destruct x as [i txt]. destruct (truthy _); repeat fail_stop_step.
Qed.

#[global] Hint Resolve fail_stop_assemble_video fail_stop_translate_notes
  fail_stop_generate_narration : fail_stop.

Lemma fail_stop_run_pipeline_language g w pptx_path notes images lang :
  fail_stop (run_pipeline_language g w pptx_path notes images lang).
Proof. unfold run_pipeline_language. repeat fail_stop_step. Qed.

#[global] Hint Resolve fail_stop_run_pipeline_language : fail_stop.

Lemma fail_stop_run_pipeline g w pptx_path languages :
  fail_stop (run_pipeline g w pptx_path languages).
Proof. unfold run_pipeline. repeat fail_stop_step. Qed.

(** In a fail-stop trace a call that raised is the last call, and its
    exception is the outcome. *)
Lemma fail_stop_last {A} (m : M A) h evs r evs1 ev evs2 e :
  fail_stop m -> m h = (evs, r) ->
  evs = evs1 ++ ev :: evs2 -> failed ev = Some e ->
  r = Raise e /\ evs2 = [].
Proof.
  intros Hm Hrun -> Hev. specialize (Hm h). rewrite Hrun in Hm.
  destruct r as [a|e'].
  - apply succeeded_app in Hm as [_ Hm]. inversion Hm; congruence.
  - destruct Hm as (evs0 & ev' & Heq & H0 & Hev').
    destruct evs2 as [|x evs2 _] using rev_ind.
    + apply app_inj_tail in Heq as [_ ->]. split; congruence.
    + rewrite app_comm_cons, app_assoc in Heq.
      apply app_inj_tail in Heq as [<- _].
      apply succeeded_app in H0 as [_ H0]. inversion H0; congruence.
Qed.

Lemma bind_Raise_mono {A B} (m : M A) (k k' : A -> M B) h evs e :
  (forall a h' evs' e',
     k a h' = (evs', Raise e') -> k' a h' = (evs', Raise e')) ->
  bind m k h = (evs, Raise e) -> bind m k' h = (evs, Raise e).
Proof.
  intros Hk. unfold bind. destruct (m h) as [evs1 [a|e1]]; [|done].
  destruct (k a (h ++ evs1)) as [evs2 [b|e2]] eqn:Hka; [discriminate|].
  by rewrite (Hk _ _ _ _ Hka).
Qed.

(** A loop that raised is not resumed: more items change nothing. *)
Lemma for_Raise_app {A S} (xs ys : list A) (body : S -> A -> M S) s h evs e :
  for_ xs body s h = (evs, Raise e) ->
  for_ (xs ++ ys) body s h = (evs, Raise e).
Proof.
  revert s h evs e. induction xs as [|x xs IH]; intros s h evs e; simpl.
  - discriminate.
  - apply bind_Raise_mono. intros s' h' evs' e'. apply IH.
Qed.

(** *** What calls a program makes *)

Lemma emits_ret {A} P (a : A) : emits P (ret a).
Proof. intros h. constructor. Qed.

Lemma emits_bind {A B} P (m : M A) (k : A -> M B) :
  emits P m -> (forall a, emits P (k a)) -> emits P (bind m k).
Proof.
  intros Hm Hk h. unfold bind. specialize (Hm h).
  destruct (m h) as [evs [a|e]]; [|done].
  specialize (Hk a (h ++ evs)).
  destruct (k a (h ++ evs)) as [evs' r]. by apply Forall_app.
Qed.

Lemma emits_external {A} (P : event -> Prop) (ask : trace -> outcome A) log :
  (forall r, P (log r)) -> emits P (external ask log).
Proof. intros Hlog h. simpl. constructor; [apply Hlog|constructor]. Qed.

Lemma emits_for {A S} P (xs : list A) (body : S -> A -> M S) s :
  (forall s x, x ∈ xs -> emits P (body s x)) -> emits P (for_ xs body s).
Proof.
  revert s. induction xs as [|x xs IH]; intros s Hbody; simpl.
  - apply emits_ret.
  - apply emits_bind.
    + apply Hbody. left.
    + intros s'. apply IH. intros s'' y Hy. apply Hbody. by right.
Qed.

Lemma emits_mono {A} (P Q : event -> Prop) (m : M A) :
  (forall ev, P ev -> Q ev) -> emits P m -> emits Q m.
Proof. intros HPQ Hm h. eapply Forall_impl; [apply Hm|apply HPQ]. Qed.

Lemma omap_none {X} (f : event -> option X) (evs : trace) :
  Forall (fun ev => f ev = None) evs -> omap f evs = [].
Proof. induction 1 as [|ev evs Hev _ IH]; simpl; [done|]. by rewrite Hev. Qed.

Ltac emits_step :=
  cbv beta zeta;
  first
    [ apply emits_ret
    | apply emits_external; intros ?; simpl; solve [eauto]
    | apply emits_bind; [|intros ?]
    | apply emits_for; intros ? ? ? ].

Tactic Notation "inv_bind" hyp(H) "as" ident(a) ident(evs1) ident(evs2)
    ident(H1) ident(H2) :=
  apply bind_Return_inv in H as (a & evs1 & evs2 & H1 & H2 & ->).

Lemma ret_inv {A} (a b : A) evs :
  ret a [] = (evs, Return b) -> evs = [] /\ b = a.
Proof. by intros [= <- <-]. Qed.

Lemma external_inv {A} (ask : trace -> outcome A) log h evs a :
  external ask log h = (evs, Return a) ->
  ask h = Return a /\ evs = [log (Return a)].
Proof. unfold external. simpl. intros [= <- Hr]. by rewrite Hr. Qed.

(** ** [translate_texts] *)

Lemma translate_texts_spec g w texts target h evs results :
  translate_texts g w texts target h = (evs, Return results) ->
  length results = length texts
  /\ Forall2 (fun t res => ~ nonblank t -> res = []) texts results
  /\ evs = translation_events target (zip texts results).
Proof.
  unfold translate_texts. revert h evs results.
  induction texts as [|t texts IH] using rev_ind; intros h evs results Hrun.
  - apply ret_inv in Hrun as [-> ->]. split; [done|]. split; [constructor|done].
  - rewrite for_snoc in Hrun. inv_bind Hrun as results0 evs0 evs1 Hloop Hbody.
    apply IH in Hloop as (Hlen & Hblank & ->).
    unfold translation_events.
    destruct (truthy (strip t)) eqn:Ht; simpl in Hbody.
    + inv_bind Hbody as res evs1' evs2 Hcall Hret.
      apply external_inv in Hcall as [_ ->].
      apply ret_inv in Hret as [-> ->].
      rewrite !length_app, Hlen. split; [done|]. split.
      * apply Forall2_app; [done|]. constructor; [|constructor].
        intros Hb. by destruct Hb.
      * rewrite zip_with_app by done. rewrite filter_app, map_app. simpl.
        rewrite filter_cons, decide_True by done. by rewrite ?app_nil_r.
    + apply ret_inv in Hbody as [-> ->].
      rewrite !length_app, Hlen. split; [done|]. split.
      * apply Forall2_app; [done|]. by constructor.
      * rewrite zip_with_app by done. rewrite filter_app, map_app. simpl.
        rewrite filter_cons, decide_False; [by rewrite ?app_nil_r|].
        unfold nonblank. simpl. congruence.
Qed.

(** Whatever the outcome, every call made by [translate_texts] is a
    translation of one of its non-blank inputs. *)
Lemma translate_texts_emits g w texts target :
  emits (fun ev => exists t r,
           ev = EvTranslate (py "auto") target t r /\ nonblank t /\ t ∈ texts)
        (translate_texts g w texts target).
Proof.
  unfold translate_texts. apply emits_for. intros results t Ht.
  destruct (truthy (strip t)) eqn:Hs; simpl; repeat emits_step.
Qed.

(** ** [generate_narration] *)

Lemma enumerate_snoc {A} (xs : list A) (x : A) :
  enumerate (xs ++ [x]) = enumerate xs ++ [(length xs, x)].
Proof.
  unfold enumerate. rewrite imap_app. simpl. by rewrite Nat.add_0_r.
Qed.

Lemma call_inv w c h evs u :
  call w c h = (evs, Return u) -> evs = [EvCommand c (Return tt)].
Proof. intros [_ ->]%external_inv. by destruct u. Qed.

Lemma synthesize_speech_inv g w text lang_code out_path h evs p :
  synthesize_speech g w text lang_code out_path h = (evs, Return p) ->
  p = out_path
  /\ evs = [EvCommand (gTTS text lang_code) (Return tt);
            EvCommand (gTTS_save text lang_code out_path) (Return tt)].
Proof.
  unfold synthesize_speech. intros Hrun.
  inv_bind Hrun as u1 evs1 evs2 H1 Hrun.
  inv_bind Hrun as u2 evs2' evs3 H2 H3.
  apply call_inv in H1 as ->. apply call_inv in H2 as ->.
  by apply ret_inv in H3 as [-> ->].
Qed.

Lemma generate_narration_spec g w lang_notes code h evs audio_files :
  generate_narration g w lang_notes code h = (evs, Return audio_files) ->
  audio_files = narration_audio g w code lang_notes
  /\ evs = narration_events g w code lang_notes.
Proof.
  unfold generate_narration, narration_audio, narration_events.
  revert h evs audio_files.
  induction lang_notes as [|txt lang_notes IH] using rev_ind;
    intros h evs audio_files Hrun.
  - by apply ret_inv in Hrun as [-> ->].
  - rewrite enumerate_snoc, for_snoc in Hrun.
    inv_bind Hrun as audio0 evs0 evs1 Hloop Hbody.
    apply IH in Hloop as [-> ->].
    rewrite !imap_app, concat_app. simpl. rewrite Nat.add_0_r, app_nil_r.
    destruct (truthy (strip txt)).
    + inv_bind Hbody as p evs1' evs2 Hsynth Hret.
      apply synthesize_speech_inv in Hsynth as [-> ->].
      apply ret_inv in Hret as [-> ->]. by rewrite app_nil_r.
    + by apply ret_inv in Hbody as [-> ->].
Qed.

Lemma narration_audio_lookup g w code lang_notes i :
  narration_audio g w code lang_notes !! i
  = (fun txt => if truthy (strip txt) then Some (audio_path_of g w i code)
                else None) <$> lang_notes !! i.
Proof. unfold narration_audio. apply list_lookup_imap. Qed.

Lemma synthesis_calls_narration g w code lang_notes :
  synthesis_calls (narration_events g w code lang_notes)
  = map (fun txt => (txt, code)) (filter nonblank lang_notes).
Proof.
  unfold synthesis_calls, narration_events.
  induction lang_notes as [|txt lang_notes IH] using rev_ind; [done|].
  rewrite imap_app, concat_app, omap_app, IH, filter_app, map_app.
  f_equal. simpl. rewrite filter_cons.
  destruct (decide (nonblank txt)) as [Ht|Ht]; unfold nonblank in Ht.
  - by rewrite Ht.
  - by apply not_true_is_false in Ht as ->.
Qed.

Lemma synthesize_speech_emits g w text lang_code out_path :
  emits (fun ev => exists r,
           ev = EvCommand (gTTS text lang_code) r
           \/ ev = EvCommand (gTTS_save text lang_code out_path) r)
        (synthesize_speech g w text lang_code out_path).
Proof.
  unfold synthesize_speech.
  apply emits_bind; [|intros ?; apply emits_bind; [|intros ?; apply emits_ret]];
    apply emits_external; eauto.
Qed.

(** Whatever the outcome, [generate_narration] calls the synthesizer
    only, and only for notes that are not blank. *)
Lemma generate_narration_emits g w lang_notes code :
  emits (fun ev => exists txt c r,
           ev = EvCommand c r /\ nonblank txt /\ txt ∈ lang_notes
           /\ (c = gTTS txt code \/ exists p, c = gTTS_save txt code p))
        (generate_narration g w lang_notes code).
Proof.
  unfold generate_narration. apply emits_for. intros audio_files [i txt] Hin.
  assert (txt ∈ lang_notes).
  { unfold enumerate in Hin. apply list_elem_of_lookup in Hin as [j Hj].
    apply list_lookup_imap_Some in Hj as (x & Hx & [= _ ->]).
    by eapply list_elem_of_lookup_2. }
  destruct (truthy (strip txt)) eqn:Ht; [|apply emits_ret].
  apply emits_bind; [|intros ?; apply emits_ret].
  eapply emits_mono; [|apply synthesize_speech_emits].
  intros ev [r [-> | ->]]; exists txt; eauto 10.
Qed.

(** ** [assemble_video] *)

Lemma clip_for_mono g evs evs' pair c :
  clip_for g evs pair c -> clip_for g (evs ++ evs') pair c.
Proof.
  unfold clip_for. intros [Himg Hc]. split; [done|].
  destruct (snd pair) as [[|x aud_path]|]; try done. simpl in *.
  destruct Hc as (ac & ? & ? & ? & ?). exists ac.
  repeat split; try done. apply elem_of_app. by left.
Qed.

Lemma AudioFileClip_inv w path h evs audio_clip :
  AudioFileClip w path h = (evs, Return audio_clip) ->
  audio_file audio_clip = path
  /\ evs = [EvAudioFileClip path (Return (audio_duration audio_clip))].
Proof.
  unfold AudioFileClip. intros Hrun.
  inv_bind Hrun as d evs1 evs2 Hask Hret.
  apply external_inv in Hask as [_ ->].
  by apply ret_inv in Hret as [-> ->].
Qed.

Lemma assemble_video_clips_spec g w slide_images audio_files h evs clips :
  assemble_video_clips g w slide_images audio_files h = (evs, Return clips) ->
  Forall2 (clip_for g evs) (zip slide_images audio_files) clips.
Proof.
  unfold assemble_video_clips.
  generalize (zip slide_images audio_files) as pairs. intros pairs.
  revert h evs clips.
  induction pairs as [|[img aud] pairs IH] using rev_ind;
    intros h evs clips Hrun.
  - apply ret_inv in Hrun as [-> ->]. constructor.
  - rewrite for_snoc in Hrun. inv_bind Hrun as clips0 evs0 evs1 Hloop Hbody.
    apply IH in Hloop.
    assert (Hsilent : forall evs' clips',
      (_ <- call w (ImageClip img 4.0%float) ;;
       ret (clips0 ++ [{| clip_image := img; clip_duration := 4.0%float;
                          clip_audio := None |}])) (h ++ evs0)
        = (evs', Return clips') ->
      match aud with Some (_ :: _) => False | _ => True end ->
      Forall2 (clip_for g (evs0 ++ evs')) (pairs ++ [(img, aud)]) clips').
    { intros evs' clips' Hs Haud.
      inv_bind Hs as u evs1' evs2 Hcall Hret.
      apply ret_inv in Hret as [-> ->].
      apply Forall2_app.
      - eapply Forall2_impl; [exact Hloop|]. intros. by apply clip_for_mono.
      - constructor; [|constructor]. split; [done|]. simpl.
        by destruct aud as [[|? ?]|]. }
    destruct aud as [[|x aud_path]|]; simpl in Hbody; try by apply Hsilent.
    inv_bind Hbody as audio_clip evs1' evs2 Haudio Hrest.
    inv_bind Hrest as u evs2' evs3 Hcall Hret.
    apply AudioFileClip_inv in Haudio as [Hfile ->].
    apply call_inv in Hcall as ->.
    apply ret_inv in Hret as [-> ->].
    apply Forall2_app.
    + eapply Forall2_impl; [exact Hloop|]. intros. by apply clip_for_mono.
    + constructor; [|constructor]. split; [done|]. simpl.
      exists audio_clip. split; [done|]. split; [exact Hfile|].
      split; [|done]. apply elem_of_app. right. left.
Qed.

Lemma assemble_video_inv g w slide_images audio_files out_path h evs u :
  assemble_video g w slide_images audio_files out_path h = (evs, Return u) ->
  exists evs0 clips,
    assemble_video_clips g w slide_images audio_files h = (evs0, Return clips)
    /\ evs = evs0 ++
        [EvCommand (ConcatenateVideoclips clips (py "compose")) (Return tt);
         EvCommand (WriteVideofile clips out_path 24 (py "libx264") true
                      (py "libmp3lame") 4) (Return tt)].
Proof.
  unfold assemble_video. intros Hrun.
  inv_bind Hrun as clips evs0 evs1 Hclips Hrest.
  inv_bind Hrest as u1 evs1' evs2 Hcat Hwrite.
  apply call_inv in Hcat as ->. apply call_inv in Hwrite as ->.
  by exists evs0, clips.
Qed.

(** A loop returns when its body always does; so [translate_texts]
    returns whenever the translator does. *)
Lemma for_returns {A S} (xs : list A) (body : S -> A -> M S) :
  (forall s x h, exists evs s', body s x h = (evs, Return s')) ->
  forall s h, exists evs s', for_ xs body s h = (evs, Return s').
Proof.
  intros Hbody. induction xs as [|x xs IH]; intros s h; simpl.
  - by exists [], s.
  - destruct (Hbody s x h) as (evs & s' & Hx).
    destruct (IH s' (h ++ evs)) as (evs' & s'' & Hxs).
    exists (evs ++ evs'), s''. rewrite (bind_Return _ _ _ _ _ Hx).
    by rewrite Hxs.
Qed.

Lemma translate_texts_returns g w texts target h :
  (forall h' t, exists res,
     google_translate w h' (py "auto") target t = Return res) ->
  exists evs results,
    translate_texts g w texts target h = (evs, Return results).
Proof.
  intros Hw. apply for_returns. intros results t h'.
  destruct (negb _); [by eexists _, _|].
  destruct (Hw h' t) as [res Hres].
  exists [EvTranslate (py "auto") target t (Return res)], (results ++ [res]).
  unfold bind, GoogleTranslator_translate, external. simpl. by rewrite Hres.
Qed.

Lemma translations_translation_events target texts results :
  length results = length texts ->
  translations (translation_events target (zip texts results))
  = map (fun t => (py "auto", target, t)) (filter nonblank texts).
Proof.
  unfold translations, translation_events.
  revert results. induction texts as [|t texts IH]; intros [|res results] Hlen;
    try done.
  simpl. rewrite !filter_cons. simpl.
  destruct (decide (nonblank t)); simpl; rewrite IH; auto.
Qed.

(** A blank input gives the empty string. *)
Lemma translate_texts_blank g w texts target h evs results i t :
  translate_texts g w texts target h = (evs, Return results) ->
  texts !! i = Some t -> ~ nonblank t -> results !! i = Some [].
Proof.
  intros (_ & Hblank & _)%translate_texts_spec Hi Ht.
  destruct (Forall2_lookup_l _ _ _ _ _ Hblank Hi) as (res & Hres & Hb).
  by rewrite Hres, (Hb Ht).
Qed.

(** A non-blank input gives what its translation call returned. *)
Lemma translate_texts_nonblank g w texts target h evs results i t :
  translate_texts g w texts target h = (evs, Return results) ->
  texts !! i = Some t -> nonblank t ->
  exists res, results !! i = Some res
    /\ EvTranslate (py "auto") target t (Return res) ∈ evs.
Proof.
  intros (_ & Hblank & Hevs)%translate_texts_spec Hi Ht.
  destruct (Forall2_lookup_l _ _ _ _ _ Hblank Hi) as (res & Hres & _).
  exists res. split; [done|]. rewrite Hevs. unfold translation_events.
  apply (list_elem_of_fmap_2'
           (fun p => EvTranslate (py "auto") target (fst p) (Return (snd p)))
           _ (t, res)); [|done].
  apply list_elem_of_filter. split; [done|].
  apply list_elem_of_lookup. exists i. apply lookup_zip_with_Some. eauto.
Qed.

(** The translation requests are those for the non-blank inputs, in
    order. *)
Lemma translate_texts_calls g w texts target h evs results :
  translate_texts g w texts target h = (evs, Return results) ->
  translations evs
  = map (fun t => (py "auto", target, t)) (filter nonblank texts).
Proof.
  intros (Hlen & _ & ->)%translate_texts_spec.
  by apply translations_translation_events.
Qed.

(** C2 (amended).  [translate_texts] returns whenever the translator
    answers, and when it returns its result has the length and order of
    the input; every input that is empty or whitespace only gives the
    empty string and no call; every input with a non-whitespace
    character is replaced by what one call to the translator, with
    source ["auto"] and the given target, returned for that input; and
    no other call is made. *)
Theorem translate_texts_aligned g w texts target h :
  ((forall h' t, exists res,
      google_translate w h' (py "auto") target t = Return res) ->
   exists evs results,
     translate_texts g w texts target h = (evs, Return results))
  /\ (forall evs results,
        translate_texts g w texts target h = (evs, Return results) ->
        length results = length texts
        /\ (forall i t, texts !! i = Some t -> ~ nonblank t ->
              results !! i = Some [])
        /\ (forall i t, texts !! i = Some t -> nonblank t ->
              exists res, results !! i = Some res
                /\ EvTranslate (py "auto") target t (Return res) ∈ evs)
        /\ evs = translation_events target (zip texts results)
        /\ translations evs
           = map (fun t => (py "auto", target, t)) (filter nonblank texts)).
Proof.
  split; [apply translate_texts_returns|].
  intros evs results Hrun. split; [|split; [|split; [|split]]].
  - by apply translate_texts_spec in Hrun as (Hlen & _).
  - intros i t. by eapply translate_texts_blank.
  - intros i t. by eapply translate_texts_nonblank.
  - by apply translate_texts_spec in Hrun as (_ & _ & Hevs).
  - by eapply translate_texts_calls.
Qed.

Lemma translate_texts_aligned_witness :
  (exists evs results,
     translate_texts sample_globals sample_world
       [py "Hello"; []; py "World"] (py "fr") [] = (evs, Return results))
  /\ translate_texts sample_globals sample_world
       [py "Hello"; []; py "World"] (py "fr") []
     = ([EvTranslate (py "auto") (py "fr") (py "Hello")
           (Return (py "fr:Hello"));
         EvTranslate (py "auto") (py "fr") (py "World")
           (Return (py "fr:World"))],
        Return [py "fr:Hello"; []; py "fr:World"])
  /\ length [py "fr:Hello"; []; py "fr:World"]
     = length [py "Hello"; []; py "World"].
Proof.
  destruct (translate_texts_aligned sample_globals sample_world
              [py "Hello"; []; py "World"] (py "fr") []) as [Hreturns Hspec].
  split; [|split; [reflexivity|]].
  - apply Hreturns. intros h' t. eexists. reflexivity.
  - apply (Hspec
             [EvTranslate (py "auto") (py "fr") (py "Hello")
                (Return (py "fr:Hello"));
              EvTranslate (py "auto") (py "fr") (py "World")
                (Return (py "fr:World"))]
             [py "fr:Hello"; []; py "fr:World"]).
    reflexivity.
Defined.

(** C2 as first stated fails: the one-space string is not empty, yet
    [translate_texts] makes no call for it and returns the empty
    string. *)
Lemma nonempty_texts_translated_fails : ~ nonempty_texts_translated.
Proof.
  intros H.
  destruct (H sample_globals sample_world [py " "] (py "fr") [] [] [[]]
              0 (py " ") eq_refl eq_refl) as (res & _ & Hin).
  - discriminate.
  - inversion Hin.
Qed.

(** C10.  A note of whitespace only counts as empty everywhere: in
    [translate_texts] it is never sent to the translator and its result
    is the empty string; in the driver's narration loop no synthesis call is made
    for it and [None] stands at its position. *)
Theorem whitespace_only_is_empty (t : str) :
  Forall (fun c => isspace c = true) t ->
  (forall g w texts target h i,
     texts !! i = Some t ->
     (forall source tg r,
        EvTranslate source tg t r ∉ fst (translate_texts g w texts target h))
     /\ (forall evs results,
           translate_texts g w texts target h = (evs, Return results) ->
           results !! i = Some []))
  /\ (forall g w lang_notes code h i,
        lang_notes !! i = Some t ->
        (forall lang r,
           EvCommand (gTTS t lang) r
             ∉ fst (generate_narration g w lang_notes code h))
        /\ (forall evs audio_files,
              generate_narration g w lang_notes code h
                = (evs, Return audio_files) ->
              audio_files !! i = Some None)).
Proof.
  intros Hws%blank_iff.
  assert (Hb : ~ nonblank t) by (unfold nonblank; congruence).
  split.
  - intros g w texts target h i Hi. split.
    + intros source tg r Hin.
      pose proof (translate_texts_emits g w texts target h) as Hall.
      rewrite Forall_forall in Hall.
      destruct (Hall _ Hin) as (t' & r' & [= _ _ <- _] & Ht' & _). done.
    + intros evs results Hrun.
      by eapply translate_texts_blank.
  - intros g w lang_notes code h i Hi. split.
    + intros lang r Hin.
      pose proof (generate_narration_emits g w lang_notes code h) as Hall.
      rewrite Forall_forall in Hall.
      destruct (Hall _ Hin) as (t' & c & r' & [= <- _] & Ht' & _ & Hc).
      destruct Hc as [[= <- _]|[p [=]]]. done.
    + intros evs audio_files [-> _]%generate_narration_spec.
      by rewrite narration_audio_lookup, Hi; simpl; rewrite Hws.
Qed.

Lemma whitespace_only_is_empty_witness :
  Forall (fun c => isspace c = true) [32; 9; 10; 160]%N
  /\ (forall evs results,
        translate_texts sample_globals sample_world
          [py "Hello"; [32; 9; 10; 160]%N] (py "fr") [] = (evs, Return results) ->
        results !! 1 = Some [])
  /\ (forall evs audio_files,
        generate_narration sample_globals sample_world
          [py "Hello"; [32; 9; 10; 160]%N] (py "fr") []
          = (evs, Return audio_files) ->
        audio_files !! 1 = Some None).
Proof.
  assert (Hws : Forall (fun c => isspace c = true) [32; 9; 10; 160]%N)
    by (repeat constructor).
  split; [exact Hws|].
  destruct (whitespace_only_is_empty _ Hws) as [Htr Hnar].
  split.
  - apply (Htr sample_globals sample_world
             [py "Hello"; [32; 9; 10; 160]%N] (py "fr") [] 1). reflexivity.
  - apply (Hnar sample_globals sample_world
             [py "Hello"; [32; 9; 10; 160]%N] (py "fr") [] 1). reflexivity.
Defined.

(** ** The narration of one language *)

Lemma translate_notes_length g w notes code h evs lang_notes :
  translate_notes g w notes code h = (evs, Return lang_notes) ->
  length lang_notes = length notes.
Proof.
  unfold translate_notes. destruct (negb _).
  - by intros (Hlen & _)%translate_texts_spec.
  - by intros [_ ->]%ret_inv.
Qed.

(** C1 (amended).  For the notes of a language (translated, or the
    extracted notes for ["en"]), the audio list the driver hands to
    [assemble_video] has one entry per note in the same order:
    position [i] holds the path [slide_<i+1>_<code>.mp3] under [TMP_DIR]
    when the note has a non-whitespace character, and [None] when the
    note is empty or whitespace only; one synthesis request is made per
    note of the first kind, in order, and none for the others. *)
Theorem audio_list_aligned g w pptx_path notes images lang h
    lang_notes evs1 audio_files evs2 :
  translate_notes g w notes (lang_code lang) h = (evs1, Return lang_notes) ->
  generate_narration g w lang_notes (lang_code lang) (h ++ evs1)
    = (evs2, Return audio_files) ->
  (exists evs3 r,
     assemble_video g w images audio_files
       (out_file_of g w pptx_path (lang_code lang)) (h ++ evs1 ++ evs2)
       = (evs3, r)
     /\ run_pipeline_language g w pptx_path notes images lang h
        = (evs1 ++ evs2 ++ evs3, r))
  /\ length audio_files = length notes
  /\ (forall i txt, lang_notes !! i = Some txt ->
        audio_files !! i
        = Some (if truthy (strip txt)
                then Some (audio_path_of g w i (lang_code lang)) else None))
  /\ synthesis_calls evs2
     = map (fun txt => (txt, lang_code lang)) (filter nonblank lang_notes).
Proof.
  intros Hnotes Hnar. split; [|split; [|split]].
  - destruct (assemble_video g w images audio_files
                (out_file_of g w pptx_path (lang_code lang))
                (h ++ evs1 ++ evs2)) as [evs3 r] eqn:Hasm.
    exists evs3, r. split; [done|]. unfold run_pipeline_language.
    rewrite (bind_Return _ _ _ _ _ Hnotes).
    rewrite (bind_Return _ _ _ _ _ Hnar). simpl.
    rewrite <- (app_assoc h evs1 evs2), Hasm. simpl. by rewrite app_assoc.
  - apply generate_narration_spec in Hnar as [-> _].
    unfold narration_audio. rewrite length_imap.
    by eapply translate_notes_length.
  - intros i txt Hi. apply generate_narration_spec in Hnar as [-> _].
    by rewrite narration_audio_lookup, Hi.
  - apply generate_narration_spec in Hnar as [_ ->].
    apply synthesis_calls_narration.
Qed.

Lemma audio_list_aligned_witness :
  translate_notes sample_globals sample_world
    [py "Hello"; []; py "World"] (py "fr") []
  = (translation_events (py "fr")
       [(py "Hello", py "fr:Hello"); (py "World", py "fr:World")],
     Return [py "fr:Hello"; []; py "fr:World"])
  /\ length [Some (py "C:\app\tmp_assets\slide_1_fr.mp3"); None;
             Some (py "C:\app\tmp_assets\slide_3_fr.mp3")]
     = length [py "Hello"; []; py "World"].
Proof.
  split; [reflexivity|].
  apply (audio_list_aligned sample_globals sample_world sample_pptx
           [py "Hello"; []; py "World"] []
           {| lang_code := py "fr"; lang_label := py "French" |} []
           [py "fr:Hello"; []; py "fr:World"]
           (translation_events (py "fr")
              [(py "Hello", py "fr:Hello"); (py "World", py "fr:World")])
           [Some (py "C:\app\tmp_assets\slide_1_fr.mp3"); None;
            Some (py "C:\app\tmp_assets\slide_3_fr.mp3")]
           (narration_events sample_globals sample_world (py "fr")
              [py "fr:Hello"; []; py "fr:World"]));
    reflexivity.
Defined.

(** C1 as first stated fails: a translator may answer a single space;
    that note is not empty, yet its audio entry is [None]. *)
Lemma nonempty_notes_narrated_fails : ~ nonempty_notes_narrated.
Proof.
  intros H.
  destruct (H sample_globals blank_world [py "Hello"]
              {| lang_code := py "fr"; lang_label := py "French" |} []
              [py " "]
              [EvTranslate (py "auto") (py "fr") (py "Hello") (Return (py " "))]
              [None] [] 0 (py " ") eq_refl eq_refl eq_refl)
    as [audio_path Hp].
  - discriminate.
  - discriminate Hp.
Qed.

(** C3.  In the video [assemble_video] writes, the clip at each position
    of the paired input shows its image for the audio clip's duration
    plus [POST_AUDIO_PADDING] (1.5) when an audio file is given, and for
    4.0 when the audio entry is [None]. *)
Theorem clip_duration_rule w file slide_images audio_files out_path h evs u :
  assemble_video (module_globals (os_path w) file) w
    slide_images audio_files out_path h = (evs, Return u) ->
  exists clips,
    EvCommand (WriteVideofile clips out_path 24 (py "libx264") true
                 (py "libmp3lame") 4) (Return tt) ∈ evs
    /\ length clips = min (length slide_images) (length audio_files)
    /\ forall i img aud,
         slide_images !! i = Some img -> audio_files !! i = Some aud ->
         exists c,
           clips !! i = Some c /\ clip_image c = img
           /\ match aud with
              | Some aud_path =>
                  aud_path <> [] ->
                  exists audio_clip,
                    clip_audio c = Some audio_clip
                    /\ audio_file audio_clip = aud_path
                    /\ EvAudioFileClip aud_path
                         (Return (audio_duration audio_clip)) ∈ evs
                    /\ clip_duration c
                       = (audio_duration audio_clip + 1.5)%float
              | None => clip_audio c = None /\ clip_duration c = 4.0%float
              end.
Proof.
  intros (evs0 & clips & Hclips & ->)%assemble_video_inv.
  apply assemble_video_clips_spec in Hclips.
  exists clips. split; [|split].
  - apply elem_of_app. right. right. left.
  - apply Forall2_length in Hclips. rewrite <- Hclips. apply length_zip_with.
  - intros i img aud Himg Haud.
    assert (Hi : zip slide_images audio_files !! i = Some (img, aud)).
    { apply lookup_zip_with_Some. eauto. }
    destruct (Forall2_lookup_l _ _ _ _ _ Hclips Hi) as (c & Hc & Himage & Hrule).
    exists c. split; [done|]. split; [done|]. simpl in Hrule.
    destruct aud as [aud_path|]; [|done].
    intros Hne. destruct aud_path as [|x aud_path]; [done|]. simpl in Hrule.
    destruct Hrule as (ac & Ha & Hf & Hin & Hd). exists ac.
    split; [done|]. split; [done|]. split; [|done].
    apply elem_of_app. by left.
Qed.

Lemma clip_duration_rule_witness :
  exists clips,
    EvCommand (WriteVideofile clips (py "C:\out\talk_fr.mp4") 24 (py "libx264")
                 true (py "libmp3lame") 4) (Return tt)
      ∈ fst (assemble_video sample_globals sample_world
               [py "Slide1.JPG"; py "Slide2.JPG"]
               [Some (py "slide_1_fr.mp3"); None] (py "C:\out\talk_fr.mp4") [])
    /\ length clips = 2.
Proof.
  destruct (clip_duration_rule sample_world sample_file
              [py "Slide1.JPG"; py "Slide2.JPG"]
              [Some (py "slide_1_fr.mp3"); None] (py "C:\out\talk_fr.mp4") []
              (fst (assemble_video sample_globals sample_world
                      [py "Slide1.JPG"; py "Slide2.JPG"]
                      [Some (py "slide_1_fr.mp3"); None]
                      (py "C:\out\talk_fr.mp4") []))
              tt eq_refl) as (clips & Hin & Hlen & _).
  exists clips. split; [exact Hin|exact Hlen].
Defined.

(** The sample run: 3.25 s of narration gives a 4.75 s clip, and the
    slide without narration a 4 s clip. *)
Example assemble_video_clips_sample :
  snd (assemble_video_clips sample_globals sample_world
         [py "Slide1.JPG"; py "Slide2.JPG"]
         [Some (py "slide_1_fr.mp3"); None] [])
  = Return
      [ {| clip_image := py "Slide1.JPG"; clip_duration := 4.75%float;
           clip_audio := Some {| audio_file := py "slide_1_fr.mp3";
                                 audio_duration := 3.25%float |} |};
        {| clip_image := py "Slide2.JPG"; clip_duration := 4.0%float;
           clip_audio := None |} ].
Proof. reflexivity. Qed.

(** ** [export_slides_as_images] *)

(** C9.  [export_slides_as_images] returns the entries of the export
    directory whose names end with [".JPG"], ordered by name, each
    joined to the export directory path. *)
Theorem export_sorted_jpg g w pptx_path out_dir h evs images :
  export_slides_as_images g w pptx_path out_dir h = (evs, Return images) ->
  let base :=
    path_join (os_path w) (abspath (os_path w) out_dir) (py "slide_image") in
  exists entries names,
    EvListdir base (Return entries) ∈ evs
    /\ images = map (path_join (os_path w) base) names
    /\ StronglySorted str_le names
    /\ names ≡ₚ filter (fun f => endswith f (py ".JPG") = true) entries
    /\ (forall f, f ∈ names <->
                  f ∈ entries /\ exists stem, f = stem ++ py ".JPG").
Proof.
  unfold export_slides_as_images. intros Hrun. cbv zeta in *.
  inv_bind Hrun as u1 evs1 evs1' H1 Hrun.
  inv_bind Hrun as u2 evs2 evs2' H2 Hrun.
  inv_bind Hrun as u3 evs3 evs3' H3 Hrun.
  inv_bind Hrun as u4 evs4 evs4' H4 Hrun.
  inv_bind Hrun as u5 evs5 evs5' H5 Hrun.
  inv_bind Hrun as u6 evs6 evs6' H6 Hrun.
  inv_bind Hrun as entries evs7 evs7' H7 Hrun.
  apply external_inv in H7 as [_ ->].
  apply ret_inv in Hrun as [-> ->].
  exists entries,
    (filter (fun f => endswith f (py ".JPG") = true) (sorted entries)).
  split; [|split; [done|split; [|split]]].
  - rewrite !elem_of_app. do 6 right. left. left.
  - apply StronglySorted_filter_str, sorted_spec.
  - unfold sorted. by rewrite merge_sort_Permutation.
  - intros f. rewrite list_elem_of_filter, endswith_suffix.
    unfold sorted. rewrite merge_sort_Permutation. tauto.
Qed.

Lemma export_sorted_jpg_witness :
  export_slides_as_images sample_globals sample_world sample_pptx
    (TMP_DIR sample_globals) []
  = (fst (export_slides_as_images sample_globals sample_world sample_pptx
            (TMP_DIR sample_globals) []),
     Return [py "C:\app\tmp_assets\slide_image\Slide1.JPG";
             py "C:\app\tmp_assets\slide_image\Slide2.JPG";
             py "C:\app\tmp_assets\slide_image\Slide3.JPG"])
  /\ exists entries names,
       EvListdir (py "C:\app\tmp_assets\slide_image") (Return entries)
         ∈ fst (export_slides_as_images sample_globals sample_world
                  sample_pptx (TMP_DIR sample_globals) [])
       /\ [py "C:\app\tmp_assets\slide_image\Slide1.JPG";
           py "C:\app\tmp_assets\slide_image\Slide2.JPG";
           py "C:\app\tmp_assets\slide_image\Slide3.JPG"]
          = map (path_join sample_os_path (py "C:\app\tmp_assets\slide_image"))
                names
       /\ StronglySorted str_le names.
Proof.
  split; [vm_compute; reflexivity|].
  pose proof (export_sorted_jpg sample_globals sample_world sample_pptx
                (TMP_DIR sample_globals) [] _ _ eq_refl) as Hspec.
  cbv zeta in Hspec.
  destruct Hspec as (entries & names & Hin & Himages & Hsorted & _).
  exists entries, names. split; [exact Hin|]. split; [exact Himages|exact Hsorted].
Defined.

(** ** The driver *)

Lemma bind_cases {A B} (m : M A) (k : A -> M B) h :
  (exists evs e, m h = (evs, Raise e) /\ bind m k h = (evs, Raise e))
  \/ (exists evs a, m h = (evs, Return a)
        /\ bind m k h = (evs ++ fst (k a (h ++ evs)), snd (k a (h ++ evs)))).
Proof.
  destruct (m h) as [evs [a|e]] eqn:Hm.
  - right. exists evs, a. split; [done|]. by apply bind_Return.
  - left. exists evs, e. split; [done|]. by apply bind_Raise.
Qed.

Ltac emits_auto :=
  repeat first
    [ emits_step
    | match goal with
      | |- emits _ (match ?x with _ => _ end) => destruct x
      | |- emits _ (if ?b then _ else _) => destruct b
      end ].

Section NoSuchCall.
(** Steps that make no call selected by [f], for an [f] that selects
    neither reading the deck, nor PowerPoint automation, nor listing a
    directory. *)
Context {X : Type} (f : event -> option X).

Lemma extract_notes_from_pptx_omits g w pptx_path :
  (forall path r, f (EvPresentation path r) = None) ->
  emits (fun ev => f ev = None) (extract_notes_from_pptx g w pptx_path).
Proof. intros Hf. unfold extract_notes_from_pptx, Presentation. emits_auto. Qed.

Lemma export_slides_as_images_omits g w pptx_path out_dir :
  (forall c r, (forall text lang, c <> gTTS text lang) ->
     (forall a b c1 d e1 f1 g1, c <> WriteVideofile a b c1 d e1 f1 g1) ->
     f (EvCommand c r) = None) ->
  (forall path r, f (EvListdir path r) = None) ->
  emits (fun ev => f ev = None)
        (export_slides_as_images g w pptx_path out_dir).
Proof.
  intros Hc Hl. unfold export_slides_as_images, call, listdir.
  emits_auto; apply Hc; discriminate.
Qed.
End NoSuchCall.

Lemma translate_texts_no_video g w texts target :
  emits (fun ev => video_of ev = None) (translate_texts g w texts target).
Proof.
  eapply emits_mono; [|apply translate_texts_emits].
  by intros ev (t & r & -> & _).
Qed.

Lemma translate_notes_no_video g w notes code :
  emits (fun ev => video_of ev = None) (translate_notes g w notes code).
Proof.
  unfold translate_notes. destruct (negb _);
    [apply translate_texts_no_video | apply emits_ret].
Qed.

Lemma generate_narration_no_video g w lang_notes code :
  emits (fun ev => video_of ev = None) (generate_narration g w lang_notes code).
Proof.
  eapply emits_mono; [|apply generate_narration_emits].
  by intros ev (t & c & r & -> & _ & _ & [-> | [p ->]]).
Qed.

Lemma generate_narration_no_translation g w lang_notes code :
  emits (fun ev => translation_of ev = None)
        (generate_narration g w lang_notes code).
Proof.
  eapply emits_mono; [|apply generate_narration_emits].
  by intros ev (t & c & r & -> & _).
Qed.

Lemma assemble_video_clips_media g w slide_images audio_files :
  emits (fun ev => translation_of ev = None /\ video_of ev = None
                   /\ synthesis_of ev = None)
        (assemble_video_clips g w slide_images audio_files).
Proof. unfold assemble_video_clips, AudioFileClip, call. emits_auto. Qed.

Lemma assemble_video_no_translation g w slide_images audio_files out_path :
  emits (fun ev => translation_of ev = None)
        (assemble_video g w slide_images audio_files out_path).
Proof.
  unfold assemble_video. apply emits_bind.
  - eapply emits_mono; [|apply assemble_video_clips_media]. by intros ev [? _].
  - intros clips. unfold call. emits_auto.
Qed.

(** [assemble_video] writes its one video last, if it gets that far. *)
Lemma assemble_video_videos g w slide_images audio_files out_path h :
  match assemble_video g w slide_images audio_files out_path h with
  | (evs, Return _) => videos evs = [out_path]
  | (evs, Raise _) => videos evs = [] \/ videos evs = [out_path]
  end.
Proof.
  unfold assemble_video.
  assert (Hclips : forall h',
    videos (fst (assemble_video_clips g w slide_images audio_files h')) = []).
  { intros h'. apply omap_none.
    eapply Forall_impl; [apply assemble_video_clips_media|]. by intros ev (_ & ? & _). }
  destruct (bind_cases (assemble_video_clips g w slide_images audio_files)
              (fun clips =>
                 _ <- call w (ConcatenateVideoclips clips (py "compose")) ;;
                 call w (WriteVideofile clips out_path 24 (py "libx264") true
                           (py "libmp3lame") 4)) h)
    as [(evs & e & Hm & ->)|(evs & clips & Hm & ->)].
  - left. specialize (Hclips h). by rewrite Hm in Hclips.
  - specialize (Hclips h). rewrite Hm in Hclips. simpl in Hclips.
    unfold videos in *. rewrite omap_app, Hclips. simpl.
    unfold bind, call, external. simpl.
    destruct (run_command w (h ++ evs) _) as [u|e]; simpl; [|by left].
    destruct (run_command w _ _) as [u'|e]; simpl; [done|by right].
Qed.

Lemma run_pipeline_language_videos g w pptx_path notes images lang h :
  match run_pipeline_language g w pptx_path notes images lang h with
  | (evs, Return _) => videos evs = [out_file_of g w pptx_path (lang_code lang)]
  | (evs, Raise _) =>
      videos evs = []
      \/ videos evs = [out_file_of g w pptx_path (lang_code lang)]
  end.
Proof.
  unfold run_pipeline_language.
  pose proof (translate_notes_no_video g w notes (lang_code lang) h) as H1.
  apply omap_none in H1.
  match goal with |- context [bind ?m ?k h] =>
    destruct (bind_cases m k h) as [(evs1 & e & Hm & ->)|(evs1 & ln & Hm & ->)]
  end; rewrite Hm in H1; simpl in H1; [by left|].
  pose proof (generate_narration_no_video g w ln (lang_code lang) (h ++ evs1))
    as H2.
  apply omap_none in H2.
  match goal with |- context [bind ?m ?k (h ++ evs1)] =>
    destruct (bind_cases m k (h ++ evs1))
      as [(evs2 & e & Hn & ->)|(evs2 & audio & Hn & ->)]
  end; rewrite Hn in H2; simpl in H2; simpl; unfold videos in *;
    rewrite !omap_app, ?H1, ?H2; simpl; [by left|].
  pose proof (assemble_video_videos g w images audio
                (out_file_of g w pptx_path (lang_code lang))
                ((h ++ evs1) ++ evs2)) as H3.
  by destruct (assemble_video _ _ _ _ _ _) as [evs3 [u|e]].
Qed.

Lemma languages_loop_videos g w pptx_path notes images languages u h :
  match for_ languages
          (fun _ lang => run_pipeline_language g w pptx_path notes images lang)
          u h with
  | (evs, Return _) =>
      videos evs = map (fun lang => out_file_of g w pptx_path (lang_code lang))
                       languages
  | (evs, Raise _) =>
      videos evs `prefix_of`
        map (fun lang => out_file_of g w pptx_path (lang_code lang)) languages
  end.
Proof.
  revert u h. induction languages as [|lang languages IH]; intros u h; simpl.
  - done.
  - pose proof (run_pipeline_language_videos g w pptx_path notes images lang h)
      as Hlang.
    match goal with |- context [bind ?m ?k h] =>
      destruct (bind_cases m k h) as [(evs1 & e & Hm & ->)|(evs1 & u' & Hm & ->)]
    end; rewrite Hm in Hlang.
    + destruct Hlang as [-> | ->]; [apply prefix_nil|].
      by apply prefix_cons, prefix_nil.
    + specialize (IH u' (h ++ evs1)).
      destruct (for_ languages _ u' (h ++ evs1)) as [evs2 [u''|e]]; simpl;
        unfold videos in *; rewrite omap_app, Hlang; simpl.
      * by rewrite IH.
      * by apply prefix_cons.
Qed.

(** C4.  Every video the driver writes for a deck goes to [OUTPUT_DIR]
    joined with [<stem>_<code>.mp4], where [<stem>] is the base name of
    the deck path without its extension: the paths written are those of
    the languages in order, all of them when the run returns and the
    first few when it raises. *)
Theorem output_file_pattern g w pptx_path languages h evs r :
  run_pipeline g w pptx_path languages h = (evs, r) ->
  videos evs `prefix_of`
    map (fun lang =>
           path_join (os_path w) (OUTPUT_DIR g)
             (fst (splitext (os_path w) (basename (os_path w) pptx_path))
                ++ py "_" ++ lang_code lang ++ py ".mp4"))
        languages
  /\ (forall u, r = Return u ->
        videos evs
        = map (fun lang =>
                 path_join (os_path w) (OUTPUT_DIR g)
                   (fst (splitext (os_path w) (basename (os_path w) pptx_path))
                      ++ py "_" ++ lang_code lang ++ py ".mp4"))
              languages).
Proof.
  unfold run_pipeline.
  pose proof (extract_notes_from_pptx_omits video_of g w pptx_path
                ltac:(done) h) as H1.
  apply omap_none in H1.
  match goal with |- context [bind ?m ?k h] =>
    destruct (bind_cases m k h) as [(evs1 & e & Hm & ->)|(evs1 & sl & Hm & ->)]
  end; rewrite Hm in H1; simpl in H1.
  { intros [= <- <-]. unfold videos. rewrite H1.
    split; [apply prefix_nil|done]. }
  assert (H2 : omap video_of
            (fst (export_slides_as_images g w pptx_path (TMP_DIR g) (h ++ evs1)))
            = []).
  { apply omap_none, export_slides_as_images_omits; [|done].
    intros c r' _ Hc. destruct c; try done. by destruct (Hc final out_path fps codec audio audio_codec threads). }
  match goal with |- context [bind ?m ?k (h ++ evs1)] =>
    destruct (bind_cases m k (h ++ evs1))
      as [(evs2 & e & Hn & ->)|(evs2 & images & Hn & ->)]
  end; rewrite Hn in H2; simpl in H2; simpl.
  { intros [= <- <-]. unfold videos. rewrite omap_app, H1, H2.
    split; [apply prefix_nil|done]. }
  pose proof (languages_loop_videos g w pptx_path (map slide_notes sl) images
                languages tt ((h ++ evs1) ++ evs2)) as H3.
  destruct (for_ languages _ tt _) as [evs3 r3].
  intros [= <- <-]. unfold videos in *. rewrite !omap_app, H1, H2. simpl.
  destruct r3 as [u3|e3]; [|done]. rewrite H3. by split.
Qed.

Lemma output_file_pattern_witness :
  snd (run_pipeline sample_globals sample_world sample_pptx
         (LANGUAGES sample_globals) []) = Return tt
  /\ videos (fst (run_pipeline sample_globals sample_world sample_pptx
                    (LANGUAGES sample_globals) []))
     = map (fun lang =>
              path_join sample_os_path (OUTPUT_DIR sample_globals)
                (fst (splitext sample_os_path (basename sample_os_path sample_pptx))
                   ++ py "_" ++ lang_code lang ++ py ".mp4"))
           (LANGUAGES sample_globals).
Proof.
  split; [vm_compute; reflexivity|].
  apply (proj2 (output_file_pattern sample_globals sample_world sample_pptx
           (LANGUAGES sample_globals) []
           (fst (run_pipeline sample_globals sample_world sample_pptx
                   (LANGUAGES sample_globals) []))
           (snd (run_pipeline sample_globals sample_world sample_pptx
                   (LANGUAGES sample_globals) []))
           (surjective_pairing _)) tt).
  vm_compute. reflexivity.
Defined.

(** On the sample deck [C:\decks\talk.pptx] the six videos are
    [talk_en.mp4] to [talk_si.mp4] under [output_videos]. *)
Example run_pipeline_sample_videos :
  videos (fst (run_pipeline sample_globals sample_world sample_pptx
                 (LANGUAGES sample_globals) []))
  = [py "C:\app\output_videos\talk_en.mp4";
     py "C:\app\output_videos\talk_fr.mp4";
     py "C:\app\output_videos\talk_es.mp4";
     py "C:\app\output_videos\talk_pt.mp4";
     py "C:\app\output_videos\talk_hi.mp4";
     py "C:\app\output_videos\talk_si.mp4"].
Proof. vm_compute. reflexivity. Qed.

Lemma run_pipeline_language_translations g w pptx_path notes images lang h :
  translations
    (fst (run_pipeline_language g w pptx_path notes images lang h))
  = translations (fst (translate_notes g w notes (lang_code lang) h)).
Proof.
  unfold run_pipeline_language.
  match goal with |- context [bind ?m ?k h] =>
    destruct (bind_cases m k h) as [(evs1 & e & Hm & ->)|(evs1 & ln & Hm & ->)]
  end; rewrite Hm; simpl; [done|].
  unfold translations. rewrite omap_app.
  rewrite (omap_none translation_of (fst (bind _ _ _))); [by rewrite app_nil_r|].
  apply emits_bind.
  - apply generate_narration_no_translation.
  - intros audio_files. apply assemble_video_no_translation.
Qed.

(** C5.  For the language ["en"] the driver makes no translation call
    and narrates the extracted notes themselves; for every other code
    the notes of the language are [translate_texts] of all the notes,
    and the only translation calls of that language are its calls. *)
Theorem source_language_not_translated g w pptx_path notes images lang h :
  (lang_code lang = py "en" ->
     translate_notes g w notes (lang_code lang) h = ([], Return notes)
     /\ translations
          (fst (run_pipeline_language g w pptx_path notes images lang h)) = []
     /\ run_pipeline_language g w pptx_path notes images lang h
        = (audio_files <- generate_narration g w notes (py "en") ;;
           assemble_video g w images audio_files
             (out_file_of g w pptx_path (py "en"))) h)
  /\ (lang_code lang <> py "en" ->
        translate_notes g w notes (lang_code lang) h
        = translate_texts g w notes (lang_code lang) h
        /\ translations
             (fst (run_pipeline_language g w pptx_path notes images lang h))
           = translations (fst (translate_texts g w notes (lang_code lang) h))
        /\ (forall evs1 lang_notes,
              translate_texts g w notes (lang_code lang) h
                = (evs1, Return lang_notes) ->
              translations
                (fst (run_pipeline_language g w pptx_path notes images lang h))
              = map (fun t => (py "auto", lang_code lang, t))
                    (filter nonblank notes))).
Proof.
  split.
  - intros Hen.
    assert (Hnotes : translate_notes g w notes (lang_code lang) h
                     = ([], Return notes)).
    { unfold translate_notes, str_eqb. by rewrite Hen, bool_decide_eq_true_2. }
    split; [done|]. split.
    + by rewrite run_pipeline_language_translations, Hnotes.
    + unfold run_pipeline_language. rewrite Hen.
      replace (translate_notes g w notes (py "en")) with (ret (A:=list str) notes).
      * by rewrite bind_ret_l.
      * unfold translate_notes, str_eqb. by rewrite bool_decide_eq_true_2.
  - intros Hother.
    assert (Hnotes : translate_notes g w notes (lang_code lang)
                     = translate_texts g w notes (lang_code lang)).
    { unfold translate_notes, str_eqb. by rewrite bool_decide_eq_false_2. }
    split; [by rewrite Hnotes|]. split.
    + by rewrite run_pipeline_language_translations, Hnotes.
    + intros evs1 lang_notes Hrun.
      rewrite run_pipeline_language_translations, Hnotes.
      rewrite Hrun. simpl. by eapply translate_texts_calls.
Qed.

Lemma source_language_not_translated_witness :
  translations
    (fst (run_pipeline_language sample_globals sample_world sample_pptx
            [py "Hello"; []; py "World"] []
            {| lang_code := py "en"; lang_label := py "English" |} [])) = []
  /\ translations
       (fst (run_pipeline_language sample_globals sample_world sample_pptx
               [py "Hello"; []; py "World"] []
               {| lang_code := py "fr"; lang_label := py "French" |} []))
     = [(py "auto", py "fr", py "Hello"); (py "auto", py "fr", py "World")].
Proof.
  split.
  - apply (source_language_not_translated sample_globals sample_world
             sample_pptx [py "Hello"; []; py "World"] []
             {| lang_code := py "en"; lang_label := py "English" |} []).
    reflexivity.
  - apply (proj2 (proj2 (proj2
             (source_language_not_translated sample_globals sample_world
                sample_pptx [py "Hello"; []; py "World"] []
                {| lang_code := py "fr"; lang_label := py "French" |} [])
             ltac:(discriminate)))
             (translation_events (py "fr")
                [(py "Hello", py "fr:Hello"); (py "World", py "fr:World")])
             [py "fr:Hello"; []; py "fr:World"]).
    reflexivity.
Defined.

(** ** The command line *)


Example languages_argument_sample :
  videos (fst (main sample_world sample_file
                 {| args_pptx := sample_pptx;
                    args_languages := Some [py "fr"] |} []))
  = videos (fst (main sample_world sample_file
                   {| args_pptx := sample_pptx; args_languages := None |} [])).
Proof. reflexivity. Qed.

(** ** The voice table *)

(** C7.  No step reads [default_voice]: with any other voice table
    every function of the script gives the same calls and the same
    outcome; and the synthesis request of [synthesize_speech] carries
    the text and the language code only. *)
Theorem default_voice_unused g w voices :
  (forall text lang out_path h,
     synthesize_speech (with_default_voice voices g) w text lang out_path h
     = synthesize_speech g w text lang out_path h
     /\ exists r, head (fst (synthesize_speech g w text lang out_path h))
                  = Some (EvCommand (gTTS text lang) r))
  /\ (forall pptx_path h,
        extract_notes_from_pptx (with_default_voice voices g) w pptx_path h
        = extract_notes_from_pptx g w pptx_path h)
  /\ (forall pptx_path out_dir h,
        export_slides_as_images (with_default_voice voices g) w pptx_path out_dir h
        = export_slides_as_images g w pptx_path out_dir h)
  /\ (forall texts target h,
        translate_texts (with_default_voice voices g) w texts target h
        = translate_texts g w texts target h)
  /\ (forall slide_images audio_files out_path h,
        assemble_video (with_default_voice voices g) w slide_images audio_files
          out_path h
        = assemble_video g w slide_images audio_files out_path h)
  /\ (forall pptx_path languages h,
        run_pipeline (with_default_voice voices g) w pptx_path languages h
        = run_pipeline g w pptx_path languages h).
Proof.
  repeat split.
  unfold synthesize_speech, bind, call, external. simpl.
  destruct (run_command w h (gTTS text lang)) as [u|e]; simpl.
  - destruct (run_command w _ _); simpl; eauto.
  - eauto.
Qed.

Example default_voice_entry_changed k v :
  run_pipeline (with_default_voice (<[k := v]> (default_voice sample_globals))
                  sample_globals)
    sample_world sample_pptx (LANGUAGES sample_globals) []
  = run_pipeline sample_globals sample_world sample_pptx
      (LANGUAGES sample_globals) [].
Proof. reflexivity. Qed.

(** ** Failures *)

(** C8.  A call that raises ends [run_pipeline]: it is the last call
    made, its exception is the outcome of [run_pipeline], and no value
    is returned; [run_pipeline] raises nothing else; and the languages
    after the one being processed are never started, so the run is the
    same whatever languages follow. *)
Theorem failures_propagate g w pptx_path languages h evs r :
  run_pipeline g w pptx_path languages h = (evs, r) ->
  (forall evs1 ev evs2 e,
     evs = evs1 ++ ev :: evs2 -> failed ev = Some e ->
     r = Raise e /\ evs2 = [])
  /\ (forall e, r = Raise e ->
        stopped_at e evs
        /\ forall more,
             run_pipeline g w pptx_path (languages ++ more) h = (evs, Raise e)).
Proof.
  intros Hrun. split.
  - intros evs1 ev evs2 e Hevs Hev.
    by eapply fail_stop_last; [apply fail_stop_run_pipeline|exact Hrun|..].
  - intros e ->. split.
    + pose proof (fail_stop_run_pipeline g w pptx_path languages h) as Hfs.
      by rewrite Hrun in Hfs.
    + intros more. revert Hrun. unfold run_pipeline.
      apply bind_Raise_mono. intros slides h1 evs1 e1.
      apply bind_Raise_mono. intros images h2 evs2 e2.
      apply for_Raise_app.
Qed.

Lemma failures_propagate_witness :
  snd (run_pipeline sample_globals failing_world sample_pptx
         (take 3 module_LANGUAGES) [])
  = Raise (Exception "RequestError")
  /\ run_pipeline sample_globals failing_world sample_pptx module_LANGUAGES []
     = (fst (run_pipeline sample_globals failing_world sample_pptx
               (take 3 module_LANGUAGES) []),
        Raise (Exception "RequestError")).
Proof.
  split; [vm_compute; reflexivity|].
  apply (proj2 (proj2 (failures_propagate sample_globals failing_world
           sample_pptx (take 3 module_LANGUAGES) []
           (fst (run_pipeline sample_globals failing_world sample_pptx
                   (take 3 module_LANGUAGES) []))
           (Raise (Exception "RequestError"))
           ltac:(vm_compute; reflexivity))
           (Exception "RequestError") eq_refl)
           (drop 3 module_LANGUAGES)).
Defined.

(** In the failing run the English and French videos are written, and
    the Spanish translation of the first note is the last call made. *)
Example run_pipeline_failing_sample :
  videos (fst (run_pipeline sample_globals failing_world sample_pptx
                 module_LANGUAGES []))
  = [py "C:\app\output_videos\talk_en.mp4";
     py "C:\app\output_videos\talk_fr.mp4"]
  /\ last (fst (run_pipeline sample_globals failing_world sample_pptx
                  module_LANGUAGES []))
     = Some (EvTranslate (py "auto") (py "es") (py "Hello")
               (Raise (Exception "RequestError"))).
Proof. split; vm_compute; reflexivity. Qed.

(** ** Extracted notes *)

(** What [strip] leaves is empty or has a non-whitespace character. *)
Lemma strip_empty_or_nonblank (s : str) : strip s = [] \/ nonblank (strip s).
Proof.
  destruct (truthy (strip (strip s))) eqn:Hss; [by right|left].
  apply blank_iff in Hss. unfold strip, rstrip in *.
  destruct (lstrip (reverse (lstrip s))) as [|c y] eqn:Hy; [done|].
  apply lstrip_head in Hy. rewrite Forall_reverse in Hss.
  inversion Hss; congruence.
Qed.

Lemma for_invariant {A S} (I : S -> Prop) (xs : list A) (body : S -> A -> M S) :
  (forall s x h evs s', I s -> body s x h = (evs, Return s') -> I s') ->
  forall s h evs s', I s -> for_ xs body s h = (evs, Return s') -> I s'.
Proof.
  intros Hbody. induction xs as [|x xs IH]; intros s h evs s' Hs Hrun.
  - by apply ret_inv in Hrun as [_ ->].
  - simpl in Hrun. inv_bind Hrun as s1 evs1 evs2 Hx Hxs. eauto.
Qed.

(** The notes [extract_notes_from_pptx] gives are stripped: each is
    empty or has a non-whitespace character. *)
Lemma extract_notes_stripped g w pptx_path h evs slides :
  extract_notes_from_pptx g w pptx_path h = (evs, Return slides) ->
  Forall (fun note => note = [] \/ nonblank note) (map slide_notes slides).
Proof.
  unfold extract_notes_from_pptx. intros Hrun.
  inv_bind Hrun as prs evs1 evs2 Hprs Hloop.
  revert Hloop.
  apply (for_invariant
           (fun slides_data =>
              Forall (fun note => note = [] \/ nonblank note)
                     (map slide_notes slides_data))); [|constructor].
  intros slides_data [i slide] h' evs' s' Hs [_ ->]%ret_inv.
  rewrite map_app. apply Forall_app. split; [done|].
  constructor; [|constructor]. simpl.
  destruct (has_notes_slide slide), (notes_text_frame slide) as [paragraphs|];
    auto.
  destruct (strip_empty_or_nonblank (str_join newline paragraphs)) as [->|Hn];
    [by left|].
  right. destruct (strip (str_join newline paragraphs)); [done|exact Hn].
Qed.

(** For stripped notes, as the source language has them, "has a
    non-whitespace character" is "non-empty": the audio entry is a path
    exactly for the non-empty notes. *)
Lemma source_notes_narrated g w notes code h evs audio_files i note :
  Forall (fun note => note = [] \/ nonblank note) notes ->
  generate_narration g w notes code h = (evs, Return audio_files) ->
  notes !! i = Some note ->
  (note <> [] -> audio_files !! i = Some (Some (audio_path_of g w i code)))
  /\ (note = [] -> audio_files !! i = Some None).
Proof.
  intros Hnotes [-> _]%generate_narration_spec Hi.
  rewrite narration_audio_lookup, Hi. simpl.
  rewrite Forall_forall in Hnotes.
  destruct (Hnotes note) as [-> | Hn]; [by eapply list_elem_of_lookup_2| |].
  - by split.
  - unfold nonblank in Hn. rewrite Hn. split; [done|].
    intros ->. discriminate Hn.
Qed.

(** * Further properties *)

(** ** Notes as extracted *)

Lemma lstrip_idemp (s : str) : lstrip (lstrip s) = lstrip s.
Proof.
  induction s as [|c s IH]; simpl; [done|].
  destruct (isspace c) eqn:Hc; [done|]. simpl. by rewrite Hc.
Qed.

(** [lstrip] removes a prefix of whitespace. *)
Lemma lstrip_split (s : str) :
  exists ws, s = ws ++ lstrip s /\ Forall (fun c => isspace c = true) ws.
Proof.
  induction s as [|c s (ws & Hs & Hws)]; simpl.
  - by exists [].
  - destruct (isspace c) eqn:Hc.
    + exists (c :: ws). split; [by rewrite Hs at 1|by constructor].
    + by exists [].
Qed.

(** [rstrip] removes a suffix of whitespace. *)
Lemma rstrip_split (s : str) :
  exists ws, s = rstrip s ++ ws /\ Forall (fun c => isspace c = true) ws.
Proof.
  unfold rstrip. destruct (lstrip_split (reverse s)) as (ws & Hs & Hws).
  exists (reverse ws). split; [|by apply Forall_reverse].
  rewrite <- reverse_app, <- Hs. by rewrite reverse_involutive.
Qed.

Lemma rstrip_idemp (s : str) : rstrip (rstrip s) = rstrip s.
Proof. unfold rstrip. by rewrite reverse_involutive, lstrip_idemp. Qed.

(** [strip] leaves nothing for a second [strip] to remove. *)
Lemma strip_idemp (s : str) : strip (strip s) = strip s.
Proof.
  unfold strip. destruct (lstrip s) as [|c x] eqn:Hx; [done|].
  apply lstrip_head in Hx.
  destruct (rstrip_split (c :: x)) as (ws & Hsplit & Hws).
  destruct (rstrip (c :: x)) as [|c' y] eqn:Hy.
  - simpl in Hsplit. subst ws. inversion Hws; congruence.
  - injection Hsplit as <- _. simpl. rewrite Hx, <- Hy. apply rstrip_idemp.
Qed.

Lemma slide_note_truthy (slide : Slide) :
  (if truthy (slide_note slide) then slide_note slide else [])
  = slide_note slide.
Proof. by destruct (slide_note slide). Qed.

Lemma extract_notes_from_pptx_spec g w pptx_path h evs slides :
  extract_notes_from_pptx g w pptx_path h = (evs, Return slides) ->
  exists prs,
    evs = [EvPresentation pptx_path (Return prs)]
    /\ slides
       = imap (fun i slide => {| slide_index := i;
                                 slide_notes := slide_note slide |}) prs.
Proof.
  unfold extract_notes_from_pptx. intros Hrun.
  inv_bind Hrun as prs evs1 evs2 Hprs Hloop.
  apply external_inv in Hprs as [_ ->]. exists prs.
  assert (evs2 = []
          /\ slides = imap (fun i slide => {| slide_index := i;
                                slide_notes := slide_note slide |}) prs)
    as [-> ->]; [|done].
  revert Hloop. generalize (h ++ [EvPresentation pptx_path (Return prs)]).
  revert evs2 slides.
  induction prs as [|slide prs IH] using rev_ind; intros evs2 slides h' Hloop.
  - by apply ret_inv in Hloop as [-> ->].
  - rewrite enumerate_snoc, for_snoc in Hloop.
    inv_bind Hloop as slides0 evs0 evs1 Hloop Hbody.
    apply IH in Hloop as [-> ->].
    apply ret_inv in Hbody as [-> ->].
    split; [done|]. rewrite imap_app. simpl. rewrite Nat.add_0_r.
    do 3 f_equal. apply slide_note_truthy.
Qed.

(** X1.  [extract_notes_from_pptx] makes one call, opening the deck, and
    gives one record per slide in deck order whose index is its
    position; each note is the stripped join of the slide's note
    paragraphs, so it has no leading or trailing whitespace, and a slide
    with no notes slide or no text frame has the empty note. *)
Theorem extract_notes_records g w pptx_path h evs slides :
  extract_notes_from_pptx g w pptx_path h = (evs, Return slides) ->
  exists prs,
    evs = [EvPresentation pptx_path (Return prs)]
    /\ length slides = length prs
    /\ forall i slide,
         prs !! i = Some slide ->
         exists record,
           slides !! i = Some record
           /\ slide_index record = i
           /\ strip (slide_notes record) = slide_notes record
           /\ (has_notes_slide slide = false \/ notes_text_frame slide = None ->
               slide_notes record = [])
           /\ (forall paragraphs,
                 has_notes_slide slide = true ->
                 notes_text_frame slide = Some paragraphs ->
                 slide_notes record = strip (str_join newline paragraphs)).
Proof.
  intros (prs & -> & ->)%extract_notes_from_pptx_spec. exists prs.
  split; [done|]. split; [apply length_imap|].
  intros i slide Hi. eexists. rewrite list_lookup_imap, Hi. simpl.
  split; [done|]. split; [done|]. unfold slide_note.
  split; [|split].
  - destruct (has_notes_slide slide), (notes_text_frame slide); try done.
    apply strip_idemp.
  - intros [-> | ->]; [done|]. by destruct (has_notes_slide slide).
  - by intros paragraphs -> ->.
Qed.

Lemma extract_notes_records_witness :
  exists prs,
    fst (extract_notes_from_pptx sample_globals sample_world sample_pptx [])
    = [EvPresentation sample_pptx (Return prs)]
    /\ length [ {| slide_index := 0; slide_notes := py "Hello" |};
                {| slide_index := 1; slide_notes := [] |};
                {| slide_index := 2;
                   slide_notes := py "World" ++ newline ++ py "of slides" |} ]
       = length prs.
Proof.
  destruct (extract_notes_records sample_globals sample_world sample_pptx []
              (fst (extract_notes_from_pptx sample_globals sample_world
                      sample_pptx []))
              [ {| slide_index := 0; slide_notes := py "Hello" |};
                {| slide_index := 1; slide_notes := [] |};
                {| slide_index := 2;
                   slide_notes := py "World" ++ newline ++ py "of slides" |} ]
              eq_refl) as (prs & Hevs & Hlen & _).
  exists prs. split; [exact Hevs|exact Hlen].
Defined.

(** ** Exporting the slides *)

(** X2.  [export_slides_as_images] drives PowerPoint by six calls in a
    fixed order and then lists the export directory.  Nothing is
    cleaned up on failure: [Quit] is called only when the five calls
    before it returned, and the directory is listed only when all six
    returned; when the function returns, its calls are exactly these
    seven. *)
Theorem export_call_order g w pptx_path out_dir h evs r :
  export_slides_as_images g w pptx_path out_dir h = (evs, r) ->
  (forall images, r = Return images ->
     exists entries,
       evs = map returned (export_calls w pptx_path out_dir)
             ++ [EvListdir
                   (path_join (os_path w) (abspath (os_path w) out_dir)
                      (py "slide_image"))
                   (Return entries)])
  /\ (forall r', EvCommand Quit r' ∈ evs ->
        map returned (take 5 (export_calls w pptx_path out_dir))
          `prefix_of` evs)
  /\ (forall path r', EvListdir path r' ∈ evs ->
        map returned (export_calls w pptx_path out_dir) `prefix_of` evs).
Proof.
  unfold export_slides_as_images, listdir, call, bind, external, ret, returned.
  simpl.
  repeat
    match goal with
    | |- context [run_command w ?h ?c] =>
        destruct (run_command w h c) as [[]|?]; simpl
    | |- context [os_listdir w ?h ?p] =>
        destruct (os_listdir w h p) as [entries|?]; simpl
    end;
    intros [= <- <-];
    (split; [intros ? [=]; eauto|]);
    (split; [intros r' Hin | intros path r' Hin]);
    repeat
      match goal with
      | H : _ ∈ _ :: _ |- _ => apply elem_of_cons in H as [[=]|H]
      | H : _ ∈ [] |- _ => by apply elem_of_nil in H
      end;
    try done;
    repeat first [apply prefix_nil | apply prefix_cons].
Qed.

Lemma export_call_order_witness :
  exists entries,
    fst (export_slides_as_images sample_globals sample_world sample_pptx
           (TMP_DIR sample_globals) [])
    = map returned
        (export_calls sample_world sample_pptx (TMP_DIR sample_globals))
      ++ [EvListdir (py "C:\app\tmp_assets\slide_image") (Return entries)].
Proof.
  apply (proj1 (export_call_order sample_globals sample_world sample_pptx
                  (TMP_DIR sample_globals) []
                  (fst (export_slides_as_images sample_globals sample_world
                          sample_pptx (TMP_DIR sample_globals) []))
                  (snd (export_slides_as_images sample_globals sample_world
                          sample_pptx (TMP_DIR sample_globals) []))
                  (surjective_pairing _))
           (map (path_join sample_os_path (py "C:\app\tmp_assets\slide_image"))
              [py "Slide1.JPG"; py "Slide2.JPG"; py "Slide3.JPG"])).
  vm_compute. reflexivity.
Defined.

Lemma export_slides_as_images_inv g w pptx_path out_dir h evs images :
  export_slides_as_images g w pptx_path out_dir h = (evs, Return images) ->
  exists entries,
    evs = map returned (export_calls w pptx_path out_dir)
          ++ [EvListdir
                (path_join (os_path w) (abspath (os_path w) out_dir)
                   (py "slide_image"))
                (Return entries)]
    /\ images
       = map (path_join (os_path w)
                (path_join (os_path w) (abspath (os_path w) out_dir)
                   (py "slide_image")))
             (filter (fun f => endswith f (py ".JPG") = true) (sorted entries)).
Proof.
  unfold export_slides_as_images. intros Hrun. cbv zeta in Hrun.
  inv_bind Hrun as u1 evs1 evs1' H1 Hrun.
  inv_bind Hrun as u2 evs2 evs2' H2 Hrun.
  inv_bind Hrun as u3 evs3 evs3' H3 Hrun.
  inv_bind Hrun as u4 evs4 evs4' H4 Hrun.
  inv_bind Hrun as u5 evs5 evs5' H5 Hrun.
  inv_bind Hrun as u6 evs6 evs6' H6 Hrun.
  inv_bind Hrun as entries evs7 evs7' H7 Hrun.
  apply call_inv in H1 as ->. apply call_inv in H2 as ->.
  apply call_inv in H3 as ->. apply call_inv in H4 as ->.
  apply call_inv in H5 as ->. apply call_inv in H6 as ->.
  apply external_inv in H7 as [_ ->].
  apply ret_inv in Hrun as [-> ->].
  by exists entries.
Qed.

Lemma StronglySorted_lookup_le {A} (R : relation A) (l : list A) i j x y :
  StronglySorted R l -> l !! i = Some x -> l !! j = Some y -> i < j -> R x y.
Proof.
  intros Hl. revert i j. induction Hl as [|z l Hl IH Hz]; intros i j Hi Hj Hij.
  - done.
  - destruct j as [|j]; [lia|]. simpl in Hj. destruct i as [|i].
    + injection Hi as ->. rewrite Forall_forall in Hz.
      apply Hz. by eapply list_elem_of_lookup_2.
    + simpl in Hi. apply (IH i j); [done..|lia].
Qed.

Lemma str_le_refl (a : str) : str_le a a.
Proof. by destruct (str_le_total a a). Qed.

(** X3.  The images come back in code-point order of their file names,
    not in numeric order: of two exported [.JPG] names the one that
    compares smaller as a string comes first, so [Slide10.JPG] precedes
    [Slide2.JPG]. *)
Theorem export_order_is_lexicographic g w pptx_path out_dir h evs images
    entries a b :
  export_slides_as_images g w pptx_path out_dir h = (evs, Return images) ->
  EvListdir (path_join (os_path w) (abspath (os_path w) out_dir)
               (py "slide_image")) (Return entries) ∈ evs ->
  a ∈ entries -> b ∈ entries ->
  endswith a (py ".JPG") = true -> endswith b (py ".JPG") = true ->
  str_leb b a = false ->
  exists i j,
    i < j
    /\ images !! i
       = Some (path_join (os_path w)
                 (path_join (os_path w) (abspath (os_path w) out_dir)
                    (py "slide_image")) a)
    /\ images !! j
       = Some (path_join (os_path w)
                 (path_join (os_path w) (abspath (os_path w) out_dir)
                    (py "slide_image")) b).
Proof.
  intros (entries' & -> & ->)%export_slides_as_images_inv Hev Ha Hb Hja Hjb Hba.
  assert (entries' = entries) as ->.
  { apply elem_of_app in Hev as [Hev|Hev].
    - unfold export_calls, returned in Hev. simpl in Hev.
      repeat (apply elem_of_cons in Hev as [[=]|Hev]).
      by apply elem_of_nil in Hev.
    - apply list_elem_of_singleton in Hev. by injection Hev. }
  set (names := filter (fun f => endswith f (py ".JPG") = true) (sorted entries)).
  assert (Hsorted : StronglySorted str_le names).
  { apply StronglySorted_filter_str, sorted_spec. }
  assert (Hin : forall f, f ∈ entries -> endswith f (py ".JPG") = true ->
                          exists i, names !! i = Some f).
  { intros f Hf Hj. apply list_elem_of_lookup, list_elem_of_filter.
    split; [done|]. unfold sorted. by rewrite merge_sort_Permutation. }
  destruct (Hin a Ha Hja) as [i Hi]. destruct (Hin b Hb Hjb) as [j Hj].
  exists i, j. rewrite !list_lookup_fmap, Hi, Hj. split; [|done].
  destruct (Nat.lt_trichotomy i j) as [Hlt|[->|Hgt]]; [done| |].
  - rewrite Hi in Hj. injection Hj as ->.
    pose proof (str_le_refl b) as Hrefl. unfold str_le in Hrefl. congruence.
  - pose proof (StronglySorted_lookup_le _ _ _ _ _ _ Hsorted Hj Hi Hgt) as Hle.
    unfold str_le in Hle. congruence.
Qed.

Lemma export_order_is_lexicographic_witness :
  exists images i j,
    snd (export_slides_as_images sample_globals ten_slide_world sample_pptx
           (TMP_DIR sample_globals) []) = Return images
    /\ i < j
    /\ images !! i = Some (py "C:\app\tmp_assets\slide_image\Slide10.JPG")
    /\ images !! j = Some (py "C:\app\tmp_assets\slide_image\Slide2.JPG").
Proof.
  destruct (export_order_is_lexicographic sample_globals ten_slide_world
              sample_pptx (TMP_DIR sample_globals) []
              (fst (export_slides_as_images sample_globals ten_slide_world
                      sample_pptx (TMP_DIR sample_globals) []))
              (map (path_join sample_os_path (py "C:\app\tmp_assets\slide_image"))
                 (filter (fun f => endswith f (py ".JPG") = true)
                    (sorted (map (fun n => py "Slide" ++ str_of_nat n ++ py ".JPG")
                               (seq 1 10)))))
              (map (fun n => py "Slide" ++ str_of_nat n ++ py ".JPG") (seq 1 10))
              (py "Slide10.JPG") (py "Slide2.JPG"))
    as (i & j & Hlt & Hi & Hj).
  - vm_compute. reflexivity.
  - vm_compute. repeat constructor.
  - vm_compute. repeat constructor.
  - vm_compute. repeat constructor.
  - reflexivity.
  - reflexivity.
  - reflexivity.
  - eexists _, i, j. split; [vm_compute; reflexivity|].
    split; [exact Hlt|]. split; [exact Hi|exact Hj].
Defined.

(** ** File names *)













(** ** One language *)

Lemma translate_notes_blank g w notes code h evs lang_notes i t :
  translate_notes g w notes code h = (evs, Return lang_notes) ->
  notes !! i = Some t -> ~ nonblank t ->
  exists t', lang_notes !! i = Some t' /\ ~ nonblank t'.
Proof.
  unfold translate_notes. destruct (negb _).
  - intros Hrun Hi Ht. exists []. split; [|by unfold nonblank].
    by eapply translate_texts_blank.
  - intros [_ ->]%ret_inv Hi Ht. by exists t.
Qed.

(** X6.  A slide whose note is empty or whitespace only is silent in
    every language: whatever the language, its audio entry is [None],
    and its clip, when the slide has an image, has no audio and lasts
    4.0. *)
Theorem blank_note_is_silent g w notes images lang h lang_notes evs1
    audio_files evs2 i t :
  translate_notes g w notes (lang_code lang) h = (evs1, Return lang_notes) ->
  generate_narration g w lang_notes (lang_code lang) (h ++ evs1)
    = (evs2, Return audio_files) ->
  notes !! i = Some t -> ~ nonblank t ->
  audio_files !! i = Some None
  /\ forall h' evs3 clips img,
       assemble_video_clips g w images audio_files h' = (evs3, Return clips) ->
       images !! i = Some img ->
       exists c, clips !! i = Some c /\ clip_image c = img
                 /\ clip_audio c = None /\ clip_duration c = 4.0%float.
Proof.
  intros Hnotes [-> _]%generate_narration_spec Hi Ht.
  destruct (translate_notes_blank _ _ _ _ _ _ _ _ _ Hnotes Hi Ht)
    as (t' & Hi' & Ht').
  assert (Haudio : narration_audio g w (lang_code lang) lang_notes !! i
                   = Some None).
  { rewrite narration_audio_lookup, Hi'. simpl.
    unfold nonblank in Ht'. by apply not_true_is_false in Ht' as ->. }
  split; [done|]. intros h' evs3 clips img Hclips%assemble_video_clips_spec Himg.
  assert (Hpair : zip images (narration_audio g w (lang_code lang) lang_notes)
                    !! i = Some (img, None)).
  { apply lookup_zip_with_Some. eauto. }
  destruct (Forall2_lookup_l _ _ _ _ _ Hclips Hpair) as (c & Hc & Himage & Hrule).
  exists c. simpl in *. by destruct Hrule.
Qed.

Lemma blank_note_is_silent_witness :
  [Some (py "C:\app\tmp_assets\slide_1_fr.mp3"); None] !! 1
  = Some (None : option (list N)).
Proof.
  apply (blank_note_is_silent sample_globals sample_world
           [py "Hello"; [32; 9]%N] [py "Slide1.JPG"; py "Slide2.JPG"]
           {| lang_code := py "fr"; lang_label := py "French" |} []
           [py "fr:Hello"; []]
           [EvTranslate (py "auto") (py "fr") (py "Hello")
              (Return (py "fr:Hello"))]
           [Some (py "C:\app\tmp_assets\slide_1_fr.mp3"); None]
           (narration_events sample_globals sample_world (py "fr")
              [py "fr:Hello"; []])
           1 [32; 9]%N); try reflexivity.
  unfold nonblank. discriminate.
Defined.

Lemma run_pipeline_language_inv g w pptx_path notes images lang h evs u :
  run_pipeline_language g w pptx_path notes images lang h = (evs, Return u) ->
  exists lang_notes evs1 audio_files evs2 evs3,
    translate_notes g w notes (lang_code lang) h = (evs1, Return lang_notes)
    /\ generate_narration g w lang_notes (lang_code lang) (h ++ evs1)
       = (evs2, Return audio_files)
    /\ assemble_video g w images audio_files
         (out_file_of g w pptx_path (lang_code lang)) ((h ++ evs1) ++ evs2)
       = (evs3, Return u)
    /\ evs = evs1 ++ evs2 ++ evs3.
Proof.
  unfold run_pipeline_language. intros Hrun.
  inv_bind Hrun as lang_notes evs1 evs' Hnotes Hrun.
  inv_bind Hrun as audio_files evs2 evs3 Hnar Hasm.
  by exists lang_notes, evs1, audio_files, evs2, evs3.
Qed.

(** X9.  The video of a language has as many clips as there are slides
    with both an image and a note entry: the smaller of the number of
    images and the number of notes; clip [i] shows image [i].  Images
    beyond the notes, and notes beyond the images, are left out without
    an error. *)
Theorem language_video_clips g w pptx_path notes images lang h evs u :
  run_pipeline_language g w pptx_path notes images lang h = (evs, Return u) ->
  exists clips,
    EvCommand (WriteVideofile clips (out_file_of g w pptx_path (lang_code lang))
                 24 (py "libx264") true (py "libmp3lame") 4) (Return tt) ∈ evs
    /\ length clips = min (length images) (length notes)
    /\ forall i img, images !! i = Some img -> i < length notes ->
         exists c, clips !! i = Some c /\ clip_image c = img.
Proof.
  intros (lang_notes & evs1 & audio_files & evs2 & evs3 & Hnotes & Hnar & Hasm
          & ->)%run_pipeline_language_inv.
  apply translate_notes_length in Hnotes.
  apply generate_narration_spec in Hnar as [-> _].
  apply assemble_video_inv in Hasm as (evs0 & clips & Hclips & ->).
  apply assemble_video_clips_spec in Hclips.
  assert (Hlen : length (narration_audio g w (lang_code lang) lang_notes)
                 = length notes).
  { unfold narration_audio. by rewrite length_imap. }
  exists clips. split; [|split].
  - rewrite !elem_of_app. do 3 right. right. left.
  - apply Forall2_length in Hclips. rewrite <- Hclips, <- Hlen.
    apply length_zip_with.
  - intros i img Himg Hi. rewrite <- Hlen in Hi.
    apply lookup_lt_is_Some_2 in Hi as [aud Haud].
    assert (Hpair : zip images (narration_audio g w (lang_code lang) lang_notes)
                      !! i = Some (img, aud)).
    { apply lookup_zip_with_Some. eauto. }
    destruct (Forall2_lookup_l _ _ _ _ _ Hclips Hpair) as (c & Hc & Himage & _).
    by exists c.
Qed.

Lemma language_video_clips_witness :
  exists clips,
    EvCommand (WriteVideofile clips (py "C:\app\output_videos\talk_fr.mp4")
                 24 (py "libx264") true (py "libmp3lame") 4) (Return tt)
      ∈ fst (run_pipeline_language sample_globals sample_world sample_pptx
               [py "Hello"; []; py "World"] [py "Slide1.JPG"; py "Slide2.JPG"]
               {| lang_code := py "fr"; lang_label := py "French" |} [])
    /\ length clips = 2.
Proof.
  destruct (language_video_clips sample_globals sample_world sample_pptx
              [py "Hello"; []; py "World"] [py "Slide1.JPG"; py "Slide2.JPG"]
              {| lang_code := py "fr"; lang_label := py "French" |} []
              (fst (run_pipeline_language sample_globals sample_world
                      sample_pptx [py "Hello"; []; py "World"]
                      [py "Slide1.JPG"; py "Slide2.JPG"]
                      {| lang_code := py "fr"; lang_label := py "French" |} []))
              tt eq_refl) as (clips & Hin & Hlen & _).
  exists clips. split; [exact Hin|exact Hlen].
Defined.


(** ** The calls of [assemble_video] *)

(** X11.  When [assemble_video] has built its clips, it has opened
    exactly the audio files of the paired entries that carry a
    non-empty path, in order, and made one image clip per pair, in
    order; no audio file is opened for a silent slide or for an entry
    beyond the last image. *)
Theorem assemble_video_opens g w slide_images audio_files h evs clips :
  assemble_video_clips g w slide_images audio_files h = (evs, Return clips) ->
  audio_opened evs = omap narrated (zip slide_images audio_files)
  /\ image_clips evs = map fst (zip slide_images audio_files).
Proof.
  unfold assemble_video_clips, audio_opened, image_clips.
  generalize (zip slide_images audio_files) as pairs. intros pairs.
  revert h evs clips.
  induction pairs as [|[img aud] pairs IH] using rev_ind;
    intros h evs clips Hrun.
  - by apply ret_inv in Hrun as [-> ->].
  - rewrite for_snoc in Hrun. inv_bind Hrun as clips0 evs0 evs1 Hloop Hbody.
    apply IH in Hloop as [Haudio Himage].
    rewrite !omap_app, map_app, Haudio, Himage. simpl.
    assert (Hsilent : forall evs' clips',
      (_ <- call w (ImageClip img 4.0%float) ;;
       ret (clips0 ++ [{| clip_image := img; clip_duration := 4.0%float;
                          clip_audio := None |}])) (h ++ evs0)
        = (evs', Return clips') ->
      omap audio_opened_of evs' = [] /\ omap image_clip_of evs' = [img]).
    { intros evs' clips' Hs. inv_bind Hs as u evs1' evs2 Hcall Hret.
      apply call_inv in Hcall as ->. by apply ret_inv in Hret as [-> ->]. }
    destruct aud as [[|x aud_path]|]; simpl in Hbody; unfold narrated; simpl.
    + by apply Hsilent in Hbody as [-> ->].
    + inv_bind Hbody as audio_clip evs1' evs2 Haud Hrest.
      inv_bind Hrest as u evs2' evs3 Hcall Hret.
      apply AudioFileClip_inv in Haud as [_ ->].
      apply call_inv in Hcall as ->. by apply ret_inv in Hret as [-> ->].
    + by apply Hsilent in Hbody as [-> ->].
Qed.

Lemma assemble_video_opens_witness :
  audio_opened
    (fst (assemble_video_clips sample_globals sample_world
            [py "Slide1.JPG"; py "Slide2.JPG"]
            [Some (py "slide_1_fr.mp3"); None; Some (py "slide_3_fr.mp3")] []))
  = [py "slide_1_fr.mp3"].
Proof.
  apply (assemble_video_opens sample_globals sample_world
           [py "Slide1.JPG"; py "Slide2.JPG"]
           [Some (py "slide_1_fr.mp3"); None; Some (py "slide_3_fr.mp3")] []
           (fst (assemble_video_clips sample_globals sample_world
                   [py "Slide1.JPG"; py "Slide2.JPG"]
                   [Some (py "slide_1_fr.mp3"); None;
                    Some (py "slide_3_fr.mp3")] []))
           [ {| clip_image := py "Slide1.JPG"; clip_duration := 4.75%float;
                clip_audio := Some {| audio_file := py "slide_1_fr.mp3";
                                      audio_duration := 3.25%float |} |};
             {| clip_image := py "Slide2.JPG"; clip_duration := 4.0%float;
                clip_audio := None |} ]).
  reflexivity.
Defined.

(** ** The source language *)

(** X12.  For the notes as [extract_notes_from_pptx] gives them, the
    narration loop puts an audio path at exactly the positions of the
    non-empty notes and [None] at the positions of the empty ones. *)
Theorem extracted_notes_narrated g w pptx_path h evs0 slides code h' evs
    audio_files i note :
  extract_notes_from_pptx g w pptx_path h = (evs0, Return slides) ->
  generate_narration g w (map slide_notes slides) code h'
    = (evs, Return audio_files) ->
  map slide_notes slides !! i = Some note ->
  (note <> [] -> audio_files !! i = Some (Some (audio_path_of g w i code)))
  /\ (note = [] -> audio_files !! i = Some None).
Proof.
  intros Hextract%extract_notes_stripped Hnar Hi.
  by eapply source_notes_narrated.
Qed.

Lemma extracted_notes_narrated_witness :
  [Some (py "C:\app\tmp_assets\slide_1_en.mp3"); None;
   Some (py "C:\app\tmp_assets\slide_3_en.mp3")] !! 0
  = Some (Some (audio_path_of sample_globals sample_world 0 (py "en")))
  /\ [Some (py "C:\app\tmp_assets\slide_1_en.mp3"); None;
      Some (py "C:\app\tmp_assets\slide_3_en.mp3")] !! 1
     = Some (None : option (list N)).
Proof.
  split.
  - apply (proj1 (extracted_notes_narrated sample_globals sample_world
             sample_pptx []
             [EvPresentation sample_pptx (Return sample_deck)]
             [ {| slide_index := 0; slide_notes := py "Hello" |};
               {| slide_index := 1; slide_notes := [] |};
               {| slide_index := 2;
                  slide_notes := py "World" ++ newline ++ py "of slides" |} ]
             (py "en") []
             (narration_events sample_globals sample_world (py "en")
                [py "Hello"; []; py "World" ++ newline ++ py "of slides"])
             [Some (py "C:\app\tmp_assets\slide_1_en.mp3"); None;
              Some (py "C:\app\tmp_assets\slide_3_en.mp3")]
             0 (py "Hello") eq_refl eq_refl eq_refl)).
    discriminate.
  - apply (proj2 (extracted_notes_narrated sample_globals sample_world
             sample_pptx []
             [EvPresentation sample_pptx (Return sample_deck)]
             [ {| slide_index := 0; slide_notes := py "Hello" |};
               {| slide_index := 1; slide_notes := [] |};
               {| slide_index := 2;
                  slide_notes := py "World" ++ newline ++ py "of slides" |} ]
             (py "en") []
             (narration_events sample_globals sample_world (py "en")
                [py "Hello"; []; py "World" ++ newline ++ py "of slides"])
             [Some (py "C:\app\tmp_assets\slide_1_en.mp3"); None;
              Some (py "C:\app\tmp_assets\slide_3_en.mp3")]
             1 [] eq_refl eq_refl eq_refl)).
    reflexivity.
Defined.

(** ** The whole run *)

Lemma translate_notes_calls g w notes code h evs lang_notes :
  translate_notes g w notes code h = (evs, Return lang_notes) ->
  translations evs
  = if str_eqb code (py "en") then []
    else map (fun t => (py "auto", code, t)) (filter nonblank notes).
Proof.
  unfold translate_notes. destruct (str_eqb code (py "en")); simpl.
  - by intros [-> _]%ret_inv.
  - apply translate_texts_calls.
Qed.

Lemma languages_loop_translations g w pptx_path notes images languages u h
    evs u' :
  for_ languages
    (fun _ lang => run_pipeline_language g w pptx_path notes images lang) u h
    = (evs, Return u') ->
  translations evs = run_translations notes languages.
Proof.
  revert u h evs. induction languages as [|lang languages IH];
    intros u h evs Hrun.
  - by apply ret_inv in Hrun as [-> _].
  - simpl in Hrun. inv_bind Hrun as u1 evs1 evs2 Hlang Hrest.
    apply IH in Hrest. unfold run_translations, translations in *. simpl.
    rewrite omap_app, Hrest. f_equal.
    pose proof (run_pipeline_language_translations g w pptx_path notes images
                  lang h) as Htr.
    rewrite Hlang in Htr. simpl in Htr. unfold translations in Htr.
    rewrite Htr.
    apply run_pipeline_language_inv in Hlang
      as (ln & e1 & au & e2 & e3 & Hnotes & _).
    rewrite Hnotes. simpl. by eapply translate_notes_calls.
Qed.

(** X7.  In a run that returns, the translator is asked once for every
    note with a non-whitespace character and every language other than
    ["en"], language by language in the order of the language list and,
    within a language, in slide order; nothing else is translated. *)
Theorem run_translation_requests g w pptx_path languages h evs u :
  run_pipeline g w pptx_path languages h = (evs, Return u) ->
  exists evs0 slides,
    extract_notes_from_pptx g w pptx_path h = (evs0, Return slides)
    /\ translations evs = run_translations (map slide_notes slides) languages.
Proof.
  unfold run_pipeline. intros Hrun.
  inv_bind Hrun as slides evs0 evs' Hextract Hrun.
  inv_bind Hrun as images evs1 evs2 Hexport Hloop.
  exists evs0, slides. split; [done|].
  apply languages_loop_translations in Hloop.
  unfold translations in *. rewrite !omap_app, Hloop.
  rewrite (omap_none translation_of evs0), (omap_none translation_of evs1);
    [done| |].
  - pose proof (export_slides_as_images_omits translation_of g w pptx_path
                  (TMP_DIR g) ltac:(done) ltac:(done) (h ++ evs0)) as H1.
    by rewrite Hexport in H1.
  - pose proof (extract_notes_from_pptx_omits translation_of g w pptx_path
                  ltac:(done) h) as H0.
    by rewrite Hextract in H0.
Qed.

Lemma run_translation_requests_witness :
  translations
    (fst (run_pipeline sample_globals sample_world sample_pptx
            (take 3 module_LANGUAGES) []))
  = run_translations [py "Hello"; []; py "World" ++ newline ++ py "of slides"]
      (take 3 module_LANGUAGES).
Proof.
  destruct (run_translation_requests sample_globals sample_world sample_pptx
              (take 3 module_LANGUAGES) []
              (fst (run_pipeline sample_globals sample_world sample_pptx
                      (take 3 module_LANGUAGES) []))
              tt ltac:(vm_compute; reflexivity))
    as (evs0 & slides & Hextract & Htr).
  injection Hextract as _ <-. exact Htr.
Defined.

Example run_translations_sample :
  run_translations [py "Hello"; []; py "World"] (take 3 module_LANGUAGES)
  = [(py "auto", py "fr", py "Hello"); (py "auto", py "fr", py "World");
     (py "auto", py "es", py "Hello"); (py "auto", py "es", py "World")].
Proof. reflexivity. Qed.

Lemma emits_nothing {A} (m : M A) h :
  emits (fun _ => False) m -> fst (m h) = [].
Proof.
  intros Hm. specialize (Hm h). destruct (fst (m h)); [done|].
  by inversion Hm.
Qed.

(** [extract_notes_from_pptx] makes one call whatever happens. *)
Lemma extract_notes_from_pptx_trace g w pptx_path h :
  fst (extract_notes_from_pptx g w pptx_path h)
  = [EvPresentation pptx_path (open_presentation w h pptx_path)].
Proof.
  unfold extract_notes_from_pptx, Presentation, bind, external. simpl.
  destruct (open_presentation w h pptx_path) as [prs|e]; [|done].
  match goal with |- context [for_ ?xs ?body ?s ?h'] =>
    assert (Hloop : fst (for_ xs body s h') = [])
      by (apply emits_nothing, emits_for; intros ? [? ?] _; apply emits_ret);
    destruct (for_ xs body s h') as [evs r]
  end.
  simpl in *. by rewrite Hloop.
Qed.

Lemma export_slides_as_images_setup g w pptx_path out_dir h :
  Forall (fun ev => is_setup ev = true)
         (fst (export_slides_as_images g w pptx_path out_dir h))
  /\ length (fst (export_slides_as_images g w pptx_path out_dir h)) <= 7.
Proof.
  unfold export_slides_as_images, listdir, call, bind, external, ret. simpl.
  repeat
    match goal with
    | |- context [run_command w ?h ?c] =>
        destruct (run_command w h c) as [[]|?]; simpl
    | |- context [os_listdir w ?h ?p] =>
        destruct (os_listdir w h p) as [entries|?]; simpl
    end;
    (split; [repeat constructor|lia]).
Qed.

Lemma run_pipeline_language_no_setup g w pptx_path notes images lang :
  emits (fun ev => is_setup ev = false)
        (run_pipeline_language g w pptx_path notes images lang).
Proof.
  unfold run_pipeline_language. apply emits_bind; [|intros lang_notes].
  - unfold translate_notes. destruct (negb _); [|apply emits_ret].
    eapply emits_mono; [|apply translate_texts_emits].
    by intros ev (t & r & -> & _).
  - apply emits_bind; [|intros audio_files].
    + eapply emits_mono; [|apply generate_narration_emits].
      by intros ev (t & c & r & -> & _ & _ & [-> | [p ->]]).
    + unfold assemble_video, assemble_video_clips, AudioFileClip, call.
      emits_auto.
Qed.

(** X8.  The deck is read and exported once per run, before any
    language is processed: the calls of a run are at most eight calls
    that open the deck, drive PowerPoint or list the export directory,
    followed by calls of other kinds only, however many languages there
    are. *)
Theorem setup_happens_once g w pptx_path languages h evs r :
  run_pipeline g w pptx_path languages h = (evs, r) ->
  exists evs_setup evs_languages,
    evs = evs_setup ++ evs_languages
    /\ Forall (fun ev => is_setup ev = true) evs_setup
    /\ length evs_setup <= 8
    /\ Forall (fun ev => is_setup ev = false) evs_languages.
Proof.
  unfold run_pipeline.
  pose proof (extract_notes_from_pptx_trace g w pptx_path h) as H1.
  match goal with |- context [bind ?m ?k h] =>
    destruct (bind_cases m k h) as [(evs1 & e & Hm & ->)|(evs1 & sl & Hm & ->)]
  end; rewrite Hm in H1; simpl in H1; subst evs1.
  { intros [= <- <-]. eexists _, []. rewrite app_nil_r.
    split; [done|]. split; [by repeat constructor|]. split; [simpl; lia|done]. }
  match goal with |- context [bind ?m ?k (h ++ ?evs1)] =>
    pose proof (export_slides_as_images_setup g w pptx_path (TMP_DIR g)
                  (h ++ evs1)) as [H2 H2'];
    destruct (bind_cases m k (h ++ evs1))
      as [(evs2 & e & Hn & ->)|(evs2 & images & Hn & ->)]
  end; rewrite Hn in H2, H2'; simpl in H2, H2'; simpl.
  { intros [= <- <-]. eexists _, []. rewrite app_nil_r.
    split; [done|]. split; [by constructor|]. split; [simpl; lia|done]. }
  match goal with |- context [for_ languages ?body tt ?h'] =>
    pose proof (emits_for (fun ev => is_setup ev = false) languages body tt
                  (fun _ lang _ =>
                     run_pipeline_language_no_setup g w pptx_path
                       (map slide_notes sl) images lang) h') as H3;
    destruct (for_ languages body tt h') as [evs3 r3]
  end.
  intros [= <- <-]. simpl in *.
  eexists (_ :: evs2), evs3. split; [done|].
  split; [by constructor|]. split; [simpl; lia|done].
Qed.

Lemma setup_happens_once_witness :
  exists evs_setup evs_languages,
    fst (run_pipeline sample_globals sample_world sample_pptx
           module_LANGUAGES []) = evs_setup ++ evs_languages
    /\ length evs_setup <= 8
    /\ Forall (fun ev => is_setup ev = false) evs_languages.
Proof.
  destruct (setup_happens_once sample_globals sample_world sample_pptx
              module_LANGUAGES []
              (fst (run_pipeline sample_globals sample_world sample_pptx
                      module_LANGUAGES []))
              (snd (run_pipeline sample_globals sample_world sample_pptx
                      module_LANGUAGES []))
              (surjective_pairing _))
    as (evs_setup & evs_languages & Hevs & _ & Hlen & Hrest).
  exists evs_setup, evs_languages. split; [exact Hevs|]. split; [exact Hlen|exact Hrest].
Defined.

(** ** The script *)

Lemma call_run w c h :
  call w c h = ([EvCommand c (run_command w h c)], run_command w h c).
Proof. reflexivity. Qed.

(** X13.  The script creates [output_videos] and [tmp_assets] (with
    [exist_ok]) before anything else: any other call, such as opening
    the deck, is made only after both [makedirs] calls returned, so when
    either raises nothing is read, exported, translated or written. *)
Theorem main_creates_directories_first w file args h evs r ev :
  main w file args h = (evs, r) ->
  ev ∈ evs ->
  (forall path exist_ok r', ev <> EvCommand (Makedirs path exist_ok) r') ->
  [returned (Makedirs (OUTPUT_DIR (module_globals (os_path w) file)) true);
   returned (Makedirs (TMP_DIR (module_globals (os_path w) file)) true)]
    `prefix_of` evs.
Proof.
  unfold main, returned. cbv zeta.
  set (g := module_globals (os_path w) file).
  unfold bind at 1. rewrite call_run.
  destruct (run_command w h (Makedirs (OUTPUT_DIR g) true)) as [[]|e1].
  - unfold bind at 1. rewrite call_run.
    destruct (run_command w _ (Makedirs (TMP_DIR g) true)) as [[]|e2].
    + destruct (run_pipeline g w (args_pptx args) (LANGUAGES g) _)
        as [evs' r'].
      intros [= <- <-] _ _. by do 2 apply prefix_cons; apply prefix_nil.
    + intros [= <- <-] Hin Hev.
      repeat (apply elem_of_cons in Hin as [->|Hin];
              [exfalso; eapply Hev; reflexivity|]).
      by apply elem_of_nil in Hin.
  - intros [= <- <-] Hin Hev.
    apply list_elem_of_singleton in Hin as ->.
    exfalso. eapply Hev. reflexivity.
Qed.

Lemma main_creates_directories_first_witness :
  [returned (Makedirs (py "C:\app\output_videos") true);
   returned (Makedirs (py "C:\app\tmp_assets") true)]
    `prefix_of`
    fst (main sample_world sample_file
           {| args_pptx := sample_pptx; args_languages := None |} []).
Proof.
  apply (main_creates_directories_first sample_world sample_file
           {| args_pptx := sample_pptx; args_languages := None |} []
           (fst (main sample_world sample_file
                   {| args_pptx := sample_pptx; args_languages := None |} []))
           (snd (main sample_world sample_file
                   {| args_pptx := sample_pptx; args_languages := None |} []))
           (EvPresentation sample_pptx (Return sample_deck))
           (surjective_pairing _)).
  - vm_compute. do 2 right. left.
  - discriminate.
Defined.
